(** * Conway's Game of Life on a torus (gol.go)

    A shallow embedding of [gol.go]: the [Field] of cells with its
    toroidal read [Alive], the unchecked write [Set], the transition rule
    [Next], and the double-buffered [Life] with [NewLife], [Step] and
    [String].

    Go's [int] is taken at its 64-bit size, with the wrap-around of [+]
    and [*] written out; [%] is the truncated remainder.  A slice index
    out of range, a remainder by zero and a refused allocation all abort
    the program: such a run is [None]. *)

From Stdlib Require Import ZArith Lia List Bool.
From Stdlib.Strings Require Import Byte.
From stdpp Require Import base option list.

Open Scope Z_scope.

(** ** Machine integers *)

Module Int.

Definition min_int : Z := - 2 ^ 63.
Definition max_int : Z := 2 ^ 63 - 1.

(** Two's complement reduction into [min_int .. max_int]. *)
Definition wrap (z : Z) : Z := (z + 2 ^ 63) mod 2 ^ 64 - 2 ^ 63.

Definition add (a b : Z) : Z := wrap (a + b).
Definition mul (a b : Z) : Z := wrap (a * b).

(** [a / b] and [a % b] truncate toward zero and panic on [b = 0]. *)
Definition quo (a b : Z) : option Z :=
  if b =? 0 then None else Some (wrap (Z.quot a b)).
Definition rem (a b : Z) : option Z :=
  if b =? 0 then None else Some (Z.rem a b).

Definition in_range (z : Z) : Prop := min_int <= z <= max_int.

End Int.

(** ** Slices *)

(** The heap of a 64-bit target spans [maxAlloc] bytes, and a request
    beyond it is refused.  A [bool] takes one byte, a slice header three
    words.  The model grants every request within the bound: memory is
    taken to be as large as the address space. *)
Definition maxAlloc : Z := 2 ^ 48.
Definition sizeof_bool : Z := 1.
Definition sizeof_slice : Z := 24.

(** [make([]T, n)]: [n] zero values of size [size]; panics on a negative
    or oversized length. *)
Definition make {A : Type} (size : Z) (zero : A) (n : Z) : option (list A) :=
  if (0 <=? n) && (n * size <=? maxAlloc)
  then Some (replicate (Z.to_nat n) zero)
  else None.

(** [l[i]]: bounds-checked read with a signed index. *)
Definition index {A : Type} (l : list A) (i : Z) : option A :=
  if i <? 0 then None else l !! Z.to_nat i.

(** [for i := lo; i < hi; i++] and [for i := range s] over an
    accumulator, in the error monad. *)
Fixpoint forZ {S : Type} (l : list Z) (body : Z → S → option S) (acc : S)
  : option S :=
  match l with
  | [] => Some acc
  | i :: l' => match body i acc with
               | Some acc' => forZ l' body acc'
               | None => None
               end
  end.

(** ** Field *)

Module Field.
Record t : Type := mk { s : list (list bool); width : Z; h : Z }.
End Field.

(** [f.s[y][x] = b] *)
Definition Set_ (f : Field.t) (x y : Z) (b : bool) : option Field.t :=
  row ← index (Field.s f) y;
  _ ← index row x;
  Some (Field.mk (<[Z.to_nat y := <[Z.to_nat x := b]> row]> (Field.s f))
                 (Field.width f) (Field.h f)).

Definition Alive (f : Field.t) (x y : Z) : option bool :=
  let x := Int.add x (Field.width f) in
  x ← Int.rem x (Field.width f);
  let y := Int.add y (Field.h f) in
  y ← Int.rem y (Field.h f);
  row ← index (Field.s f) y;
  index row x.

(** The loop body of [Next]: the conjunction short-circuits, so the
    centre offset never reads the field. *)
Definition Next_body (f : Field.t) (x y i j : Z) (alive : Z) : option Z :=
  c ← (if negb (j =? 0) || negb (i =? 0)
       then Alive f (Int.add x i) (Int.add y j)
       else Some false);
  Some (if c : bool then Int.add alive 1 else alive).

Definition Next_count (f : Field.t) (x y : Z) : option Z :=
  forZ [-1; 0; 1]
       (λ i alive, forZ [-1; 0; 1] (λ j alive, Next_body f x y i j alive) alive)
       0.

Definition Next (f : Field.t) (x y : Z) : option bool :=
  alive ← Next_count f x y;
  if alive =? 3 then Some true
  else if alive =? 2 then Alive f x y
  else Some false.

(** ** The heap, the random source and the monad of the program *)

(** A [*Field] is an address in the heap.  The process-wide random source
    is an arbitrary sequence of raw draws, read in order. *)
Definition ptr : Type := nat.

Record World : Type := mkWorld {
  heap  : list Field.t;
  draws : nat → Z;
  drawn : nat
}.

Definition with_heap (w : World) (hp : list Field.t) : World :=
  mkWorld hp (draws w) (drawn w).

Definition M (A : Type) : Type := World → option (A * World).

Definition ret {A : Type} (a : A) : M A := λ w, Some (a, w).

Definition bind {A B : Type} (m : M A) (k : A → M B) : M B :=
  λ w, match m w with
       | Some (a, w') => k a w'
       | None => None
       end.

Definition lift {A : Type} (o : option A) : M A :=
  λ w, match o with
       | Some a => Some (a, w)
       | None => None
       end.

Notation "'do' x <- m ; k" := (bind m (λ x, k))
  (at level 10, x name, m at level 100, k at level 200).

Definition load (p : ptr) : M Field.t :=
  λ w, match heap w !! p with
       | Some f => Some (f, w)
       | None => None
       end.

Definition store (p : ptr) (f : Field.t) : M unit :=
  λ w, match heap w !! p with
       | Some _ => Some (tt, with_heap w (<[p := f]> (heap w)))
       | None => None
       end.

(** Bytes taken by the cells of a field. *)
Definition bytes (f : Field.t) : Z := Z.of_nat (length (concat (Field.s f))).

(** [&Field{...}]: a fresh address; the heap cannot hold a field whose
    cells go beyond [maxAlloc]. *)
Definition alloc (f : Field.t) : M ptr :=
  λ w, if bytes f <=? maxAlloc
       then Some (length (heap w), with_heap w (heap w ++ [f]))
       else None.

(** [rand.Intn(n)]: panics unless [0 < n], else the next draw reduced
    into [0 .. n-1]. *)
Definition Intn (n : Z) : M Z :=
  λ w, if n <=? 0 then None
       else Some (draws w (drawn w) mod n,
                  mkWorld (heap w) (draws w) (S (drawn w))).

Fixpoint foldM {S : Type} (l : list Z) (body : Z → S → M S) (acc : S) : M S :=
  match l with
  | [] => ret acc
  | i :: l' => do acc' <- body i acc; foldM l' body acc'
  end.

(** ** NewField *)

Definition NewField (width h : Z) : M ptr :=
  do s <- lift (make (A := list bool) sizeof_slice [] h);
  do s <- lift (forZ (seqZ 0 (Z.of_nat (length s)))
                     (λ i s, row ← make sizeof_bool false width;
                             Some (<[Z.to_nat i := row]> s))
                     s);
  alloc (Field.mk s width h).

(** ** Life *)

Module Life.
Record t : Type := mk { a : ptr; b : ptr; width : Z; h : Z }.
End Life.

Definition NewLife (width h : Z) : M Life.t :=
  do a <- NewField width h;
  do n <- lift (Int.quo (Int.mul width h) 4);
  do _ <- foldM (seqZ 0 n)
            (λ _ u,
               do x <- Intn width;
               do y <- Intn h;
               do f <- load a;
               do f' <- lift (Set_ f x y true);
               store a f')
            tt;
  do b <- NewField width h;
  ret (Life.mk a b width h).

Definition Step_cell (grid : Life.t) (x y : Z) : M unit :=
  do fa <- load (Life.a grid);
  do v <- lift (Next fa x y);
  do fb <- load (Life.b grid);
  do fb' <- lift (Set_ fb x y v);
  store (Life.b grid) fb'.

Definition Step (grid : Life.t) : M Life.t :=
  do _ <- foldM (seqZ 0 (Life.h grid))
            (λ y u, foldM (seqZ 0 (Life.width grid))
                          (λ x u, Step_cell grid x y) u)
            tt;
  ret (Life.mk (Life.b grid) (Life.a grid) (Life.width grid) (Life.h grid)).

(** [' '], ['*'] and ['\n']. *)
Definition glyph (alive : bool) : byte := if alive then x2a else x20.
Definition newline : byte := x0a.

Definition String_row (grid : Life.t) (y : Z) (buf : list byte)
  : M (list byte) :=
  do buf <- foldM (seqZ 0 (Life.width grid))
              (λ x buf,
                 do fa <- load (Life.a grid);
                 do c <- lift (Alive fa x y);
                 ret (buf ++ [glyph c]))
              buf;
  ret (buf ++ [newline]).

Definition String (grid : Life.t) : M (list byte) :=
  foldM (seqZ 0 (Life.h grid)) (String_row grid) [].

(** [n] successive calls of [Step]. *)
Fixpoint Steps (n : nat) (grid : Life.t) : M Life.t :=
  match n with
  | O => ret grid
  | S n' => do grid' <- Step grid; Steps n' grid'
  end.

(** ** main *)





(** ** Specification vocabulary *)

(** A field as [NewField] builds it and [Set] keeps it: [h] rows of
    [width] cells, both positive, within the memory bound. *)
Definition wfb (f : Field.t) : bool :=
  (0 <? Field.width f) && (0 <? Field.h f)
  && (Z.of_nat (length (Field.s f)) =? Field.h f)
  && forallb (λ row, Z.of_nat (length row) =? Field.width f) (Field.s f)
  && (Field.width f * Field.h f <=? maxAlloc).

Definition wf (f : Field.t) : Prop := wfb f = true.

(** The boolean stored at column [x] of row [y]. *)
Definition stored (f : Field.t) (x y : Z) : option bool :=
  row ← Field.s f !! Z.to_nat y; row !! Z.to_nat x.

Definition cell (f : Field.t) (x y : Z) : bool := default false (stored f x y).

Definition in_field (f : Field.t) (x y : Z) : Prop :=
  0 <= x < Field.width f ∧ 0 <= y < Field.h f.

(** The eight offsets, in the order the loops of [Next] visit them. *)
Definition offsets : list (Z * Z) :=
  [(-1, -1); (-1, 0); (-1, 1); (0, -1); (0, 1); (1, -1); (1, 0); (1, 1)].

(** Number of live cells among the eight neighbours on the torus. *)
Definition neighbours (f : Field.t) (x y : Z) : Z :=
  foldr Z.add 0
        (map (λ d, Z.b2z (cell f ((x + d.1) mod Field.width f)
                                 ((y + d.2) mod Field.h f)))
             offsets).

(** The rule of the game. *)
Definition rule (n : Z) (own : bool) : bool := (n =? 3) || ((n =? 2) && own).

(** A well-formed field of [W] columns and [H] rows. *)
Definition has_dims (f : Field.t) (W H : Z) : Prop :=
  wf f ∧ Field.width f = W ∧ Field.h f = H.

(** The state of a game: two fields at distinct addresses, both of the
    game's dimensions. *)
Definition Inv (w : World) (g : Life.t) : Prop :=
  Life.a g ≠ Life.b g ∧
  ∃ fa fb, heap w !! Life.a g = Some fa ∧ heap w !! Life.b g = Some fb ∧
           has_dims fa (Life.width g) (Life.h g) ∧
           has_dims fb (Life.width g) (Life.h g).

Fixpoint count_true (l : list bool) : nat :=
  match l with
  | [] => 0
  | c :: l' => (if c then 1 else 0) + count_true l'
  end.

(** Number of live cells of a field. *)
Definition population (f : Field.t) : Z :=
  Z.of_nat (foldr (λ row n, (count_true row + n)%nat) 0%nat (Field.s f)).

(** The next state of a cell, as the rule gives it from the field. *)
Definition next_cell (f : Field.t) (x y : Z) : bool :=
  rule (neighbours f x y) (cell f x y).

(** The field [f] after the write of [b] at column [x] of row [y]. *)
Definition updated (f : Field.t) (x y : Z) (b : bool) : Field.t :=
  Field.mk (alter (λ row, <[Z.to_nat x := b]> row) (Z.to_nat y) (Field.s f))
           (Field.width f) (Field.h f).

(** The game after one step: the two addresses exchange their roles. *)
Definition swapped (g : Life.t) : Life.t :=
  Life.mk (Life.b g) (Life.a g) (Life.width g) (Life.h g).

(** The sweep of [Step] under way from the world [w]: only the field
    at [b] has changed, it has kept its shape, and the cells already
    visited hold the next state computed from [fa], the field at [a]. *)
Definition swept (g : Life.t) (w : World) (fa : Field.t)
           (visited : Z → Z → Prop) (w' : World) : Prop :=
  ∃ fb', w' = with_heap w (<[Life.b g := fb']> (heap w)) ∧
         has_dims fb' (Life.width g) (Life.h g) ∧
         ∀ x y, 0 <= x < Life.width g → 0 <= y < Life.h g → visited x y →
                cell fb' x y = next_cell fa x y.

(** The text of a field: row after row, a glyph per stored cell and a
    line terminator after each row. *)
Definition render_row (row : list bool) : list byte :=
  map glyph row ++ [newline].

Definition render (f : Field.t) : list byte :=
  concat (map render_row (Field.s f)).

(** The dimensions whose field the memory can hold. *)
Definition fits (width h : Z) : bool :=
  (h * sizeof_slice <=? maxAlloc) && (width * h <=? maxAlloc).

(** The field with every cell dead. *)
Definition dead (width h : Z) : Field.t :=
  Field.mk (replicate (Z.to_nat h) (replicate (Z.to_nat width) false))
           width h.

(** The [j]-th placement of [NewLife] from the world [w]: two draws, the
    column first. *)
Definition placement (w : World) (width h : Z) (j : Z) : Z * Z :=
  (draws w (drawn w + 2 * Z.to_nat j)%nat mod width,
   draws w (drawn w + 2 * Z.to_nat j + 1)%nat mod h).

(** The world [w] with [d] for its random source. *)
Definition with_draws (w : World) (d : nat → Z) : World :=
  mkWorld (heap w) d (drawn w).

(** The random source that follows that of [w] over the draws already
    made and from there on yields, placement after placement, the column
    and then the row that [t] names. *)
Definition sourced (w : World) (t : Z → Z * Z) : nat → Z :=
  λ k, if (k <? drawn w)%nat then draws w k
       else if Nat.even (k - drawn w)
            then fst (t (Z.of_nat (Nat.div2 (k - drawn w))))
            else snd (t (Z.of_nat (Nat.div2 (k - drawn w)))).

(** ** Patterns *)

(** The field [f] shows the pattern [p]: each of its cells is alive
    exactly where [p] says. *)
Definition shows (f : Field.t) (p : Z → Z → bool) : Prop :=
  ∀ x y, in_field f x y → cell f x y = p x y.

(** Among position [x] and its two neighbours on a ring of [n]
    positions, how many satisfy [ind]. *)
Definition line3 (n : Z) (ind : Z → bool) (x : Z) : Z :=
  Z.b2z (ind ((x + -1) mod n)) + Z.b2z (ind ((x + 0) mod n))
  + Z.b2z (ind ((x + 1) mod n)).

(** The two positions [c] and [c+1]. *)
Definition in_pair (c : Z) (x : Z) : bool := (x =? c) || (x =? c + 1).

(** The block: the 2 by 2 square with its corner at column [bx] of row
    [by']. *)
Definition block (bx by' : Z) (x y : Z) : bool :=
  in_pair bx x && in_pair by' y.

(** The blinker around (2,2), lying and standing. *)
Definition mid3 (x : Z) : bool := (1 <=? x) && (x <=? 3).
Definition at2 (x : Z) : bool := x =? 2.
Definition blinker_h (x y : Z) : bool := mid3 x && at2 y.
Definition blinker_v (x y : Z) : bool := at2 x && mid3 y.

(** ** Generations *)



(** ** Translations of the torus *)

(** [f2] is [f1] moved by [dx] columns and [dy] rows around the torus. *)
Definition shifted (dx dy : Z) (f1 f2 : Field.t) : Prop :=
  Field.width f2 = Field.width f1 ∧ Field.h f2 = Field.h f1 ∧
  ∀ x y, in_field f1 x y →
         cell f2 ((x + dx) mod Field.width f1) ((y + dy) mod Field.h f1)
         = cell f1 x y.

(** ** Example fields and games *)

(** One row of two cells, the left one alive. *)
Definition strip2 : Field.t := Field.mk [[true; false]] 2 1.

(** A 5 by 5 game: the horizontal blinker in the current field, and a
    scratch field left over from an earlier generation. *)
Definition blinker5 : Field.t :=
  Field.mk [[false; false; false; false; false];
            [false; false; false; false; false];
            [false; true;  true;  true;  false];
            [false; false; false; false; false];
            [false; false; false; false; false]] 5 5.

Definition stale5 : Field.t :=
  Field.mk [[true;  false; false; false; true];
            [false; false; true;  false; false];
            [false; false; false; false; false];
            [false; true;  false; false; false];
            [true;  false; false; true;  true]] 5 5.

Definition world5 : World := mkWorld [blinker5; stale5] (λ _, 0) 0%nat.
Definition game5 : Life.t := Life.mk 0%nat 1%nat 5 5.

(** A 4 by 4 game with the block at (1,1). *)
Definition block4 : Field.t :=
  Field.mk [[false; false; false; false];
            [false; true;  true;  false];
            [false; true;  true;  false];
            [false; false; false; false]] 4 4.

Definition stale4 : Field.t :=
  Field.mk [[true;  true;  false; false];
            [false; false; false; true];
            [false; true;  false; false];
            [false; false; false; true]] 4 4.

Definition world4 : World := mkWorld [block4; stale4] (λ _, 0) 0%nat.
Definition game4 : Life.t := Life.mk 0%nat 1%nat 4 4.

(** An empty heap and a random source that keeps drawing 7. *)
Definition world0 : World := mkWorld [] (λ _, 7) 0%nat.

(** The smallest game: one live cell, which is its own eight
    neighbours. *)
Definition one1 : Field.t := Field.mk [[true]] 1 1.
Definition world1 : World := mkWorld [one1; one1] (λ _, 0) 0%nat.
Definition game1 : Life.t := Life.mk 0%nat 1%nat 1 1.

(** The blinker of [blinker5] moved two columns to the right, around the
    edge. *)
Definition blinker5_right : Field.t :=
  Field.mk [[false; false; false; false; false];
            [false; false; false; false; false];
            [true;  false; false; true;  true];
            [false; false; false; false; false];
            [false; false; false; false; false]] 5 5.

Definition world5_right : World :=
  mkWorld [stale5; blinker5_right] (λ _, 0) 0%nat.
Definition game5_right : Life.t := Life.mk 1%nat 0%nat 5 5.

(** What [NewLife 4 4] makes of [world0]: the four placements all fall
    on the cell (3,3). *)
Definition seeded4 : Field.t :=
  Field.mk [[false; false; false; false];
            [false; false; false; false];
            [false; false; false; false];
            [false; false; false; true]] 4 4.

Definition game0 : Life.t := Life.mk 0%nat 1%nat 4 4.
Definition world0_seeded : World :=
  mkWorld [seeded4; dead 4 4] (λ _, 7) 8%nat.

(** ** Tactics *)

(** Case analysis on every cell of [f] the goal reads. *)
Ltac split_cells f :=
  repeat match goal with
         | |- context [cell f ?u ?v] => generalize (cell f u v); intros []
         end.

(** Case analysis on every comparison the goal makes, dropping the
    cases that arithmetic excludes. *)
Ltac split_tests :=
  repeat match goal with
         | |- context [?u =? ?v] =>
             destruct (Z.eqb_spec u v); cbv iota; try lia
         | |- context [?u <=? ?v] =>
             destruct (Z.leb_spec u v); cbv iota; try lia
         end.

(** ** Machine integers: basic facts *)

Lemma wrap_small (z : Z) : Int.in_range z → Int.wrap z = z.
Proof.
  unfold Int.in_range, Int.wrap, Int.min_int, Int.max_int. intros Hz.
  rewrite Z.mod_small; lia.
Qed.

Lemma maxAlloc_bound : maxAlloc + maxAlloc + 1 <= Int.max_int.
Proof. vm_compute. discriminate. Qed.

(** ** Well-formed fields *)

Lemma wf_elim (f : Field.t) :
  wf f →
  0 < Field.width f ∧ 0 < Field.h f ∧
  Z.of_nat (length (Field.s f)) = Field.h f ∧
  Forall (λ row, Z.of_nat (length row) = Field.width f) (Field.s f) ∧
  Field.width f * Field.h f <= maxAlloc.
Proof.
  unfold wf, wfb. rewrite !andb_true_iff, forallb_forall.
  intros [[[[Hw Hh] Hl] Hr] Hm].
  repeat split; try lia.
  apply Forall_forall. intros row Hin.
  apply list_elem_of_In, Hr in Hin. lia.
Qed.

Lemma wf_intro (f : Field.t) :
  0 < Field.width f → 0 < Field.h f →
  Z.of_nat (length (Field.s f)) = Field.h f →
  Forall (λ row, Z.of_nat (length row) = Field.width f) (Field.s f) →
  Field.width f * Field.h f <= maxAlloc →
  wf f.
Proof.
  intros Hw Hh Hl Hr Hm. unfold wf, wfb.
  rewrite !andb_true_iff, forallb_forall. repeat split; try lia.
  intros row Hin. apply list_elem_of_In in Hin.
  rewrite Forall_forall in Hr. apply Hr in Hin. lia.
Qed.

Lemma wf_bounds (f : Field.t) :
  wf f →
  0 < Field.width f <= maxAlloc ∧ 0 < Field.h f <= maxAlloc.
Proof.
  intros Hf. apply wf_elim in Hf as (Hw & Hh & _ & _ & Hm). nia.
Qed.

Lemma stored_in_field (f : Field.t) (x y : Z) :
  wf f → in_field f x y → stored f x y = Some (cell f x y).
Proof.
  intros Hf [Hx Hy]. apply wf_elim in Hf as (Hw & Hh & Hl & Hr & _).
  unfold cell, stored.
  destruct (lookup_lt_is_Some_2 (Field.s f) (Z.to_nat y)) as [row Hrow];
    [lia|].
  rewrite Hrow. simpl.
  rewrite Forall_forall in Hr.
  assert (Hlen : Z.of_nat (length row) = Field.width f)
    by (apply Hr; eapply list_elem_of_lookup_2; eauto).
  destruct (lookup_lt_is_Some_2 row (Z.to_nat x)) as [c Hc]; [lia|].
  rewrite Hc. reflexivity.
Qed.

Lemma index_nonneg {A : Type} (l : list A) (i : Z) :
  0 <= i → index l i = l !! Z.to_nat i.
Proof.
  intros Hi. unfold index. destruct (Z.ltb_spec i 0); [lia | reflexivity].
Qed.

Lemma index_neg {A : Type} (l : list A) (i : Z) : i < 0 → index l i = None.
Proof.
  intros Hi. unfold index. destruct (Z.ltb_spec i 0); [reflexivity | lia].
Qed.

(** ** Alive *)

(** What [Alive] computes, whatever the coordinates: the two remainders
    index the rows and the columns. *)
Lemma Alive_unfold (f : Field.t) (x y : Z) :
  wf f →
  Alive f x y =
    (row ← index (Field.s f)
                 (Z.rem (Int.wrap (y + Field.h f)) (Field.h f));
     index row (Z.rem (Int.wrap (x + Field.width f)) (Field.width f))).
Proof.
  intros Hf. apply wf_elim in Hf as (Hw & Hh & _).
  unfold Alive, Int.rem, Int.add.
  destruct (Z.eqb_spec (Field.width f) 0); [lia|].
  destruct (Z.eqb_spec (Field.h f) 0); [lia|].
  reflexivity.
Qed.

Lemma rem_wrap_bounds (z n : Z) : 0 < n → - n < Z.rem (Int.wrap z) n < n.
Proof.
  intros Hn.
  pose proof (Z.rem_bound_abs (Int.wrap z) n ltac:(lia)) as Hb.
  rewrite (Z.abs_eq n) in Hb by lia. lia.
Qed.

(** Within one turn of the torus the read succeeds and wraps. *)
Lemma Alive_one_wrap (f : Field.t) (x y : Z) :
  wf f →
  - Field.width f <= x <= Int.max_int - Field.width f →
  - Field.h f <= y <= Int.max_int - Field.h f →
  Alive f x y = Some (cell f (x mod Field.width f) (y mod Field.h f)).
Proof.
  intros Hf Hx Hy. rewrite Alive_unfold by assumption.
  pose proof (wf_bounds f Hf) as [Hw Hh].
  rewrite !wrap_small
    by (unfold Int.in_range, Int.min_int, Int.max_int in *; lia).
  rewrite !Z.rem_mod_nonneg by lia.
  replace ((y + Field.h f) mod Field.h f) with (y mod Field.h f)
    by (rewrite <- (Z.mul_1_l (Field.h f)) at 2;
        now rewrite Z.mod_add by lia).
  replace ((x + Field.width f) mod Field.width f) with (x mod Field.width f)
    by (rewrite <- (Z.mul_1_l (Field.width f)) at 2;
        now rewrite Z.mod_add by lia).
  pose proof (Z.mod_pos_bound x (Field.width f) ltac:(lia)) as Hxm.
  pose proof (Z.mod_pos_bound y (Field.h f) ltac:(lia)) as Hym.
  pose proof (stored_in_field f _ _ Hf (conj Hxm Hym)) as Hs.
  unfold stored in Hs.
  rewrite index_nonneg by lia.
  destruct (Field.s f !! Z.to_nat (y mod Field.h f)) as [row|];
    simpl in *; [|discriminate].
  rewrite index_nonneg by lia. exact Hs.
Qed.

Lemma Alive_in_field (f : Field.t) (x y : Z) :
  wf f → in_field f x y → Alive f x y = Some (cell f x y).
Proof.
  intros Hf [Hx Hy]. pose proof (wf_bounds f Hf) as [Hw Hh].
  pose proof maxAlloc_bound.
  rewrite Alive_one_wrap by (assumption || lia).
  now rewrite !Z.mod_small by lia.
Qed.

Lemma mod_minus_one (n : Z) : 0 < n → (-1) mod n = n - 1.
Proof. intros Hn. symmetry. apply (Z.mod_unique_pos _ _ (-1)); lia. Qed.

Lemma mod_plus_one_top (n : Z) : 0 < n → (n - 1 + 1) mod n = 0.
Proof. intros Hn. replace (n - 1 + 1) with n by lia. apply Z.mod_same. lia. Qed.

Lemma rem_neg_not_divide (a n : Z) :
  0 < n → a < 0 → ¬ (n | a) → Z.rem a n < 0.
Proof.
  intros Hn Ha Hd.
  pose proof (Z.rem_opp_l (- a) n ltac:(lia)) as Ho.
  rewrite Z.opp_involutive in Ho.
  rewrite Ho, Z.rem_mod_nonneg by lia.
  pose proof (Z.mod_pos_bound (- a) n Hn) as Hb.
  assert ((- a) mod n ≠ 0); [|lia].
  intros Hz. apply Z.mod_divide in Hz; [|lia].
  apply Hd. apply (proj1 (Z.divide_opp_r n a)). exact Hz.
Qed.

(** C3, at the failing input: on the one-row field of width 2, column -3
    lies two cells left of the field.  The toroidal reading of it is
    column 1, where [false] is stored, but the single addition of the
    width leaves -1, the remainder keeps the sign, and the read panics. *)
Theorem Alive_far_left_panics :
  wf strip2 ∧
  stored strip2 ((-3) mod Field.width strip2) (0 mod Field.h strip2)
    = Some false ∧
  Alive strip2 (-3) 0 = None.
Proof. repeat split. Qed.

(** C4: toroidal wrap at the four edges.  Column -1 reads as column W-1
    and column W as column 0 (in row 0); row -1 reads as row H-1 and row
    H as row 0 (in column 0); every one of these reads succeeds. *)
Theorem Alive_wraps_at_edges (f : Field.t) :
  wf f →
  (Alive f (-1) 0 = Alive f (Field.width f - 1) 0 ∧
   Alive f (Field.width f) 0 = Alive f 0 0 ∧
   Alive f 0 (-1) = Alive f 0 (Field.h f - 1) ∧
   Alive f 0 (Field.h f) = Alive f 0 0) ∧
  (is_Some (Alive f (Field.width f - 1) 0) ∧
   is_Some (Alive f 0 (Field.h f - 1)) ∧
   is_Some (Alive f 0 0)).
Proof.
  intros Hf. pose proof (wf_bounds f Hf) as [Hw Hh].
  pose proof maxAlloc_bound as Hm.
  rewrite !Alive_one_wrap by (assumption || lia).
  rewrite !mod_minus_one, !Z.mod_same, !Z.mod_0_l by lia.
  rewrite !(Z.mod_small (_ - 1)) by lia.
  repeat split; eauto.
Qed.

Lemma Alive_wraps_at_edges_witness :
  wf strip2 ∧
  Alive strip2 (-1) 0 = Alive strip2 (Field.width strip2 - 1) 0.
Proof.
  split; [reflexivity|].
  apply (Alive_wraps_at_edges strip2). reflexivity.
Defined.

(** The eight reads of [Next] stay within one turn of the torus. *)
Lemma Alive_neighbour (f : Field.t) (x y i j : Z) :
  wf f → in_field f x y → -1 <= i <= 1 → -1 <= j <= 1 →
  Alive f (Int.add x i) (Int.add y j)
  = Some (cell f ((x + i) mod Field.width f) ((y + j) mod Field.h f)).
Proof.
  intros Hf [Hx Hy] Hi Hj. pose proof (wf_bounds f Hf) as [Hw Hh].
  pose proof maxAlloc_bound as Hm. unfold Int.add.
  rewrite !wrap_small
    by (unfold Int.in_range, Int.min_int, Int.max_int in *; lia).
  apply Alive_one_wrap; (assumption || lia).
Qed.

(** C10, amended: when [Alive] returns.  The read succeeds exactly when
    both truncated remainders are non-negative, and then returns the cell
    they index.  That is the case whenever the coordinate is at least
    minus the dimension and adding the dimension does not overflow, and
    the cell is the one at (x+W) mod W, (y+H) mod H; it is the case for
    the eight reads of [Next] at an in-range cell.  A coordinate below
    minus the dimension that the dimension does not divide gives a
    negative index and the read panics. *)
Theorem Alive_total_exactly (f : Field.t) (x y : Z) :
  wf f → Int.in_range x → Int.in_range y →
  let W := Field.width f in
  let H := Field.h f in
  let cx := Z.rem (Int.wrap (x + W)) W in
  let cy := Z.rem (Int.wrap (y + H)) H in
  (is_Some (Alive f x y) ↔ 0 <= cx ∧ 0 <= cy) ∧
  (0 <= cx ∧ 0 <= cy → Alive f x y = Some (cell f cx cy)) ∧
  (- W <= x <= Int.max_int - W → - H <= y <= Int.max_int - H →
   Alive f x y = Some (cell f ((x + W) mod W) ((y + H) mod H))) ∧
  (x < - W → ¬ (W | x) → Alive f x y = None) ∧
  (y < - H → ¬ (H | y) → Alive f x y = None) ∧
  (in_field f x y →
   ∀ i j, -1 <= i <= 1 → -1 <= j <= 1 →
          is_Some (Alive f (Int.add x i) (Int.add y j))).
Proof.
  intros Hf Hx Hy W H cx cy. pose proof (wf_bounds f Hf) as [Hw Hh].
  fold W in Hw. fold H in Hh.
  pose proof (rem_wrap_bounds (x + W) W ltac:(lia)) as Hcx.
  pose proof (rem_wrap_bounds (y + H) H ltac:(lia)) as Hcy.
  fold cx in Hcx. fold cy in Hcy.
  assert (Hneg : cx < 0 ∨ cy < 0 → Alive f x y = None).
  { intros Hn. rewrite Alive_unfold by assumption. fold W H cx cy.
    destruct (Z.ltb_spec cy 0) as [Hlt|Hge].
    - now rewrite index_neg.
    - destruct (index (Field.s f) cy) as [row|]; simpl; [|reflexivity].
      apply index_neg. lia. }
  assert (Hpos : 0 <= cx ∧ 0 <= cy → Alive f x y = Some (cell f cx cy)).
  { intros [Hpx Hpy]. rewrite Alive_unfold by assumption. fold W H cx cy.
    pose proof (stored_in_field f cx cy Hf) as Hs.
    unfold stored, in_field in Hs. fold W H in Hs.
    rewrite index_nonneg by lia.
    destruct (Field.s f !! Z.to_nat cy) as [row|]; simpl in *.
    - rewrite index_nonneg by lia. apply Hs. lia.
    - exfalso. assert (Hd : None = Some (cell f cx cy)) by (apply Hs; lia).
      discriminate Hd. }
  assert (Hlow : ∀ z n, Int.in_range z → 0 < n <= maxAlloc → z < - n →
                        ¬ (n | z) → Z.rem (Int.wrap (z + n)) n < 0).
  { intros z n Hz Hn Hlt Hd. pose proof maxAlloc_bound.
    rewrite wrap_small
      by (unfold Int.in_range, Int.min_int, Int.max_int in *; lia).
    apply rem_neg_not_divide; [lia | lia |].
    intros Hdiv. apply Hd.
    replace z with (z + n - n) by lia.
    apply Z.divide_sub_r; [assumption | apply Z.divide_refl]. }
  split; [|split; [|split; [|split; [|split]]]].
  - split.
    + intros Hsome. destruct (Z.ltb_spec cx 0); [|destruct (Z.ltb_spec cy 0)];
        try lia; rewrite Hneg in Hsome by lia; now destruct Hsome.
    + intros Hc. rewrite Hpos by assumption. eauto.
  - exact Hpos.
  - intros Hx1 Hy1. rewrite Alive_one_wrap by assumption. fold W H.
    f_equal. f_equal.
    + rewrite <- (Z.mul_1_l W) at 2. now rewrite Z.mod_add by lia.
    + rewrite <- (Z.mul_1_l H) at 2. now rewrite Z.mod_add by lia.
  - intros Hlt Hd. apply Hneg. left. now apply Hlow.
  - intros Hlt Hd. apply Hneg. right. now apply Hlow.
  - intros Hin i j Hi Hj. rewrite Alive_neighbour by assumption. eauto.
Qed.

Lemma Alive_total_exactly_witness :
  wf strip2 ∧ Int.in_range (-1) ∧ Int.in_range 0 ∧
  Alive strip2 (-1) 0 = Some false.
Proof.
  assert (Hf : wf strip2) by reflexivity.
  assert (Hx : Int.in_range (-1)) by (vm_compute; split; discriminate).
  assert (Hy : Int.in_range 0) by (vm_compute; split; discriminate).
  split; [exact Hf|]. split; [exact Hx|]. split; [exact Hy|].
  destruct (Alive_total_exactly strip2 (-1) 0 Hf Hx Hy)
    as (_ & Hpos & _).
  apply Hpos. vm_compute. split; discriminate.
Defined.

(** C10 as stated fails in both directions on the one-row field of width
    2: column -4 is below minus the width and is read (as column 0),
    and the largest integer is above minus the width and its read
    panics, the addition of the width having overflowed. *)
Lemma Alive_total_exactly_cex :
  wf strip2 ∧
  (-4 < - Field.width strip2 ∧ Alive strip2 (-4) 0 = Some true) ∧
  (Int.in_range Int.max_int ∧ - Field.width strip2 <= Int.max_int ∧
   - Field.h strip2 <= 0 ∧ Alive strip2 Int.max_int 0 = None).
Proof.
  repeat split; vm_compute; discriminate.
Qed.

(** ** Next *)

(** The loops of [Next] count the live neighbours on the torus. *)
Lemma Next_count_neighbours (f : Field.t) (x y : Z) :
  wf f → in_field f x y → Next_count f x y = Some (neighbours f x y).
Proof.
  intros Hf Hin.
  unfold Next_count, forZ, Next_body.
  cbn [Z.eqb negb orb Pos.eqb].
  rewrite !(Alive_neighbour f x y) by (assumption || lia).
  cbn [mbind option_bind].
  unfold neighbours, offsets. cbn [map foldr fst snd].
  split_cells f; reflexivity.
Qed.

Lemma neighbours_bounds (f : Field.t) (x y : Z) : 0 <= neighbours f x y <= 8.
Proof.
  unfold neighbours, offsets. cbn [map foldr fst snd].
  split_cells f; vm_compute; split; discriminate.
Qed.

Lemma Next_in_field (f : Field.t) (x y : Z) :
  wf f → in_field f x y →
  Next f x y = Some (rule (neighbours f x y) (cell f x y)).
Proof.
  intros Hf Hin. unfold Next. rewrite Next_count_neighbours by assumption.
  cbn [mbind option_bind]. unfold rule.
  rewrite Alive_in_field by assumption.
  destruct (neighbours f x y =? 3), (neighbours f x y =? 2); reflexivity.
Qed.

(** C1: the transition rule.  At an in-range cell of a field, [Next]
    returns, and returns true exactly when the number of live cells among
    the eight toroidal neighbours is 3, or is 2 and the cell itself is
    alive; with 0, 1 or 4 to 8 live neighbours it returns false whatever
    the cell's own state. *)
Theorem Next_rule (f : Field.t) (x y : Z) :
  wf f → in_field f x y →
  let n := neighbours f x y in
  0 <= n <= 8 ∧
  Next f x y = Some (rule n (cell f x y)) ∧
  (Next f x y = Some true ↔ n = 3 ∨ (n = 2 ∧ cell f x y = true)) ∧
  (n = 0 ∨ n = 1 ∨ 4 <= n <= 8 → Next f x y = Some false).
Proof.
  intros Hf Hin n. pose proof (neighbours_bounds f x y) as Hn. fold n in Hn.
  pose proof (Next_in_field f x y Hf Hin) as HN. fold n in HN.
  split; [exact Hn|]. split; [exact HN|]. rewrite HN. unfold rule. split.
  - destruct (Z.eqb_spec n 3), (Z.eqb_spec n 2), (cell f x y); simpl;
      split; intros; try discriminate; try reflexivity; try lia;
      intuition (discriminate || lia).
  - intros Hc. destruct (Z.eqb_spec n 3), (Z.eqb_spec n 2); try lia.
    reflexivity.
Qed.

Lemma Next_rule_witness :
  wf strip2 ∧ in_field strip2 0 0 ∧
  Next strip2 0 0 = Some (rule (neighbours strip2 0 0) (cell strip2 0 0)).
Proof.
  assert (Hf : wf strip2) by reflexivity.
  assert (Hin : in_field strip2 0 0) by (unfold in_field; simpl; lia).
  split; [exact Hf|]. split; [exact Hin|].
  destruct (Next_rule strip2 0 0 Hf Hin) as (_ & HN & _). exact HN.
Defined.

(** ** Set *)

Lemma Set_in_field (f : Field.t) (x y : Z) (b : bool) :
  wf f → in_field f x y → Set_ f x y b = Some (updated f x y b).
Proof.
  intros Hf [Hx Hy]. pose proof (wf_elim f Hf) as (Hw & Hh & Hl & Hr & _).
  unfold Set_, updated.
  destruct (lookup_lt_is_Some_2 (Field.s f) (Z.to_nat y)) as [row Hrow];
    [lia|].
  rewrite index_nonneg, Hrow by lia. cbn [mbind option_bind].
  rewrite Forall_forall in Hr.
  assert (Hlen : Z.of_nat (length row) = Field.width f)
    by (apply Hr; eapply list_elem_of_lookup_2; eauto).
  destruct (lookup_lt_is_Some_2 row (Z.to_nat x)) as [c Hc]; [lia|].
  rewrite index_nonneg, Hc by lia. cbn [mbind option_bind].
  f_equal. f_equal.
  apply list_eq. intros k.
  destruct (decide (k = Z.to_nat y)) as [->|Hne].
  - rewrite list_lookup_insert_eq by lia.
    now rewrite list_lookup_alter_eq, Hrow.
  - rewrite list_lookup_insert_ne by congruence.
    now rewrite list_lookup_alter_ne by congruence.
Qed.

Lemma updated_wf (f : Field.t) (x y : Z) (b : bool) :
  wf f → wf (updated f x y b).
Proof.
  intros Hf. pose proof (wf_elim f Hf) as (Hw & Hh & Hl & Hr & Hm).
  apply wf_intro; cbn [updated Field.s Field.width Field.h];
    try assumption.
  - now rewrite length_alter.
  - apply Forall_alter; [assumption|].
    intros row _. rewrite Forall_forall in Hr. rewrite length_insert.
    intros Hrow. exact Hrow.
Qed.

Lemma stored_updated (f : Field.t) (x y : Z) (b : bool) (x' y' : Z) :
  in_field f x y → in_field f x' y' →
  stored (updated f x y b) x' y'
  = if (x' =? x) && (y' =? y)
    then (_ ← stored f x y; Some b)
    else stored f x' y'.
Proof.
  intros [Hx Hy] [Hx' Hy']. unfold stored, updated. cbn [Field.s].
  destruct (Z.eqb_spec y' y) as [->|Hne].
  - rewrite list_lookup_alter_eq.
    destruct (Field.s f !! Z.to_nat y) as [row|];
      [|now rewrite andb_false_r || destruct (x' =? x)].
    cbn [fmap option_fmap option_map mbind option_bind].
    destruct (Z.eqb_spec x' x) as [->|Hnx]; cbn [andb].
    + destruct (row !! Z.to_nat x) as [c|] eqn:Hc.
      * rewrite list_lookup_insert_eq; [reflexivity|].
        eapply lookup_lt_Some; eauto.
      * cbn. apply lookup_ge_None. rewrite length_insert.
        now apply lookup_ge_None.
    + rewrite list_lookup_insert_ne by lia. reflexivity.
  - rewrite andb_false_r. rewrite list_lookup_alter_ne by lia. reflexivity.
Qed.

Lemma cell_updated (f : Field.t) (x y : Z) (b : bool) (x' y' : Z) :
  wf f → in_field f x y → in_field f x' y' →
  cell (updated f x y b) x' y'
  = if (x' =? x) && (y' =? y) then b else cell f x' y'.
Proof.
  intros Hf Hin Hin'. unfold cell at 1.
  rewrite stored_updated by assumption.
  destruct ((x' =? x) && (y' =? y)).
  - now rewrite stored_in_field by assumption.
  - now rewrite stored_in_field by assumption.
Qed.

(** ** Loops *)

Lemma bind_Some {A B : Type} (m : M A) (k : A → M B) (w w' : World) (a : A) :
  m w = Some (a, w') → bind m k w = k a w'.
Proof. intros Hm. unfold bind. now rewrite Hm. Qed.

(** A counted loop that keeps an invariant runs to its end. *)
Lemma foldM_range {St : Type} (I : Z → St → World → Prop)
      (body : Z → St → M St) (n : Z) :
  (∀ i acc w, 0 <= i < n → I i acc w →
              ∃ acc' w', body i acc w = Some (acc', w') ∧ I (i + 1) acc' w') →
  ∀ (k : nat) (m : Z) acc w,
    0 <= m → m + Z.of_nat k = n → I m acc w →
    ∃ acc' w', foldM (seqZ m (Z.of_nat k)) body acc w = Some (acc', w')
               ∧ I n acc' w'.
Proof.
  intros Hbody k. induction k as [|k IH]; intros m acc w Hm Hn HI.
  - exists acc, w. replace n with m by lia. split; [reflexivity | assumption].
  - rewrite seqZ_cons by lia. cbn [foldM].
    destruct (Hbody m acc w ltac:(lia) HI) as (acc1 & w1 & Hb & HI1).
    rewrite (bind_Some _ _ _ _ _ Hb).
    replace (Z.pred (Z.of_nat (S k))) with (Z.of_nat k) by lia.
    apply IH; [lia | lia |]. now replace (Z.succ m) with (m + 1) by lia.
Qed.

Lemma foldM_seqZ {St : Type} (I : Z → St → World → Prop)
      (body : Z → St → M St) (n : Z) (acc : St) (w : World) :
  0 <= n → I 0 acc w →
  (∀ i acc w, 0 <= i < n → I i acc w →
              ∃ acc' w', body i acc w = Some (acc', w') ∧ I (i + 1) acc' w') →
  ∃ acc' w', foldM (seqZ 0 n) body acc w = Some (acc', w') ∧ I n acc' w'.
Proof.
  intros Hn HI Hbody.
  pose proof (foldM_range I body n Hbody (Z.to_nat n) 0 acc w) as Hr.
  rewrite Z2Nat.id in Hr by lia. apply Hr; [lia | lia | assumption].
Qed.

(** ** Step *)

Lemma has_dims_updated (f : Field.t) (W H x y : Z) (b : bool) :
  has_dims f W H → has_dims (updated f x y b) W H.
Proof.
  intros (Hf & HW & HH). split; [now apply updated_wf | now split].
Qed.

(** One cell of the sweep: the next state of the cell is computed from
    the field at [a] and written into the field at [b]. *)
Lemma Step_cell_spec (g : Life.t) (w : World) (fa fb : Field.t) (x y : Z) :
  Life.a g ≠ Life.b g →
  heap w !! Life.a g = Some fa → heap w !! Life.b g = Some fb →
  has_dims fa (Life.width g) (Life.h g) →
  has_dims fb (Life.width g) (Life.h g) →
  0 <= x < Life.width g → 0 <= y < Life.h g →
  Step_cell g x y w
  = Some (tt, with_heap w (<[Life.b g := updated fb x y (next_cell fa x y)]>
                             (heap w))).
Proof.
  intros Hne Ha Hb (Hfa & HWa & HHa) (Hfb & HWb & HHb) Hx Hy.
  unfold Step_cell, bind, load, lift, store.
  rewrite Ha, Next_in_field by (unfold in_field; (assumption || lia)).
  rewrite Hb, Set_in_field by (unfold in_field; (assumption || lia)).
  now rewrite Hb.
Qed.

Lemma with_heap_same (w : World) : with_heap w (heap w) = w.
Proof. now destruct w. Qed.

Lemma swept_weaken (g : Life.t) (w w' : World) (fa : Field.t)
      (P Q : Z → Z → Prop) :
  (∀ x y, 0 <= x < Life.width g → 0 <= y < Life.h g → Q x y → P x y) →
  swept g w fa P w' → swept g w fa Q w'.
Proof.
  intros HPQ (fb' & Hw & Hd & Hc). exists fb'.
  split; [exact Hw|]. split; [exact Hd|].
  intros x y Hx Hy HQ. apply Hc; auto.
Qed.

Section Sweep.

(** A game [g] in the world [w], before the sweep: [fa] is the current
    field and [fb] the scratch field, at distinct addresses. *)
Variables (g : Life.t) (w : World) (fa fb : Field.t).
Hypothesis Hne : Life.a g ≠ Life.b g.
Hypothesis Ha : heap w !! Life.a g = Some fa.
Hypothesis Hb : heap w !! Life.b g = Some fb.
Hypothesis Hda : has_dims fa (Life.width g) (Life.h g).

(** One more cell is visited. *)
Lemma swept_cell (w1 : World) (visited : Z → Z → Prop) (x y : Z) :
  0 <= x < Life.width g → 0 <= y < Life.h g →
  swept g w fa visited w1 →
  ∃ w2, Step_cell g x y w1 = Some (tt, w2) ∧
        swept g w fa (λ x' y', visited x' y' ∨ (x' = x ∧ y' = y)) w2.
Proof.
  intros Hx Hy (fb' & -> & Hdb & Hcells).
  pose proof (lookup_lt_Some _ _ _ Hb) as Hlt.
  eexists. split.
  - apply (Step_cell_spec g _ fa fb'); try assumption.
    + cbn [with_heap heap]. now rewrite list_lookup_insert_ne.
    + cbn [with_heap heap]. now rewrite list_lookup_insert_eq.
  - eexists. split; [|split].
    + cbn [with_heap heap draws drawn]. unfold with_heap.
      now rewrite list_insert_insert_eq.
    + now apply has_dims_updated.
    + intros x' y' Hx' Hy' Hv. destruct Hdb as (Hfb' & HW & HH).
      rewrite cell_updated
        by (unfold in_field; (assumption || lia)).
      destruct (Z.eqb_spec x' x) as [->|Hnx];
        destruct (Z.eqb_spec y' y) as [->|Hny]; cbn [andb];
        try reflexivity; apply Hcells; try assumption;
        destruct Hv as [Hv|[? ?]]; (assumption || lia).
Qed.

(** The sweep of one row. *)
Lemma Step_row (w1 : World) (y : Z) :
  0 <= y < Life.h g →
  swept g w fa (λ _ y', y' < y) w1 →
  ∃ w2, foldM (seqZ 0 (Life.width g)) (λ x u, Step_cell g x y) tt w1
        = Some (tt, w2) ∧
        swept g w fa (λ _ y', y' < y + 1) w2.
Proof.
  intros Hy Hsw.
  pose proof (wf_bounds fa (proj1 Hda)) as [HW _].
  rewrite (proj1 (proj2 Hda)) in HW.
  destruct (foldM_seqZ
              (λ i (_ : unit) w',
                 swept g w fa (λ x' y', y' < y ∨ (y' = y ∧ x' < i)) w')
              (λ x u, Step_cell g x y) (Life.width g) tt w1)
    as ([] & w2 & Hrun & Hsw2).
  - lia.
  - eapply swept_weaken; [|exact Hsw]. cbv beta.
    intros x' y' Hx' Hy' Hv. lia.
  - intros i [] w' Hi Hsw'.
    destruct (swept_cell w' _ i y Hi Hy Hsw') as (w'' & Hc & Hsw'').
    exists tt, w''. split; [exact Hc|].
    eapply swept_weaken; [|exact Hsw'']. cbv beta.
    intros x' y' Hx' Hy' Hv. lia.
  - exists w2. split; [exact Hrun|].
    eapply swept_weaken; [|exact Hsw2]. cbv beta.
    intros x' y' Hx' Hy' Hv. lia.
Qed.

(** The whole sweep: every cell of the field at [b] ends up holding
    the next state computed from the field at [a]. *)
Lemma Step_sweep :
  has_dims fb (Life.width g) (Life.h g) →
  ∃ w', foldM (seqZ 0 (Life.h g))
              (λ y u, foldM (seqZ 0 (Life.width g))
                            (λ x u, Step_cell g x y) u)
              tt w
        = Some (tt, w') ∧
        swept g w fa (λ _ _, True) w'.
Proof.
  intros Hdb.
  pose proof (wf_bounds fa (proj1 Hda)) as [_ HH].
  rewrite (proj2 (proj2 Hda)) in HH.
  destruct (foldM_seqZ
              (λ i (_ : unit) w', swept g w fa (λ _ y', y' < i) w')
              (λ y u, foldM (seqZ 0 (Life.width g))
                            (λ x u, Step_cell g x y) u)
              (Life.h g) tt w)
    as ([] & w' & Hrun & Hsw).
  - lia.
  - exists fb. split; [|split; [exact Hdb|]].
    + now rewrite list_insert_id, with_heap_same.
    + intros x y Hx Hy Hv. lia.
  - intros i [] w1 Hi Hsw1.
    destruct (Step_row w1 i Hi Hsw1) as (w2 & Hrow & Hsw2).
    exists tt, w2. split; assumption.
  - exists w'. split; [exact Hrun|].
    eapply swept_weaken; [|exact Hsw]. cbv beta.
    intros x y Hx Hy _. lia.
Qed.

End Sweep.

(** [Step] runs to its end, writes the scratch field only, and leaves in
    each of its cells the next state of that cell. *)
Lemma Step_run (g : Life.t) (w : World) (fa : Field.t) :
  Inv w g → heap w !! Life.a g = Some fa →
  ∃ fb',
    Step g w
    = Some (swapped g, with_heap w (<[Life.b g := fb']> (heap w))) ∧
    has_dims fb' (Life.width g) (Life.h g) ∧
    (∀ x y, 0 <= x < Life.width g → 0 <= y < Life.h g →
            cell fb' x y = next_cell fa x y).
Proof.
  intros (Hne & fa0 & fb & Ha0 & Hb & Hda & Hdb) Ha.
  assert (fa0 = fa) as -> by congruence.
  destruct (Step_sweep g w fa fb Hne Ha Hb Hda Hdb)
    as (w' & Hrun & fb' & -> & Hdb' & Hcells).
  exists fb'. split; [|split; [exact Hdb'|]].
  - unfold Step. rewrite (bind_Some _ _ _ _ _ Hrun). reflexivity.
  - intros x y Hx Hy. now apply Hcells.
Qed.

Lemma Inv_swapped (g : Life.t) (w : World) (fa fb' : Field.t) :
  Inv w g → heap w !! Life.a g = Some fa →
  has_dims fb' (Life.width g) (Life.h g) →
  let w' := with_heap w (<[Life.b g := fb']> (heap w)) in
  Inv w' (swapped g) ∧
  heap w' !! Life.a (swapped g) = Some fb' ∧
  heap w' !! Life.b (swapped g) = Some fa.
Proof.
  intros (Hne & fa0 & fb & Ha0 & Hb & Hda & Hdb) Ha Hdb' w'.
  assert (fa0 = fa) as -> by congruence.
  pose proof (lookup_lt_Some _ _ _ Hb) as Hlt. unfold w'. clear w'.
  set (w' := with_heap w (<[Life.b g := fb']> (heap w))).
  assert (H1 : heap w' !! Life.a (swapped g) = Some fb')
    by (unfold w'; cbn [with_heap heap swapped Life.a];
        now rewrite list_lookup_insert_eq).
  assert (H2 : heap w' !! Life.b (swapped g) = Some fa)
    by (unfold w'; cbn [with_heap heap swapped Life.b];
        now rewrite list_lookup_insert_ne).
  split; [|split; assumption].
  split; [cbn; congruence|]. exists fb', fa. repeat split; try assumption;
    try apply Hda; apply Hdb'.
Qed.

(** C2: one step.  From a state of the game whose current field is [fa],
    [Step] returns; only the scratch field has been written; each of its
    cells holds what [Next] returns at that cell on [fa], the current
    field as it was before the step; the current field itself is left as
    it was, and the two addresses have exchanged their roles, the fields
    staying where they are in the heap. *)
Theorem Step_synchronous (g : Life.t) (w : World) (fa : Field.t) :
  Inv w g → heap w !! Life.a g = Some fa →
  ∃ fb',
    let w' := with_heap w (<[Life.b g := fb']> (heap w)) in
    Step g w = Some (swapped g, w') ∧
    has_dims fb' (Life.width g) (Life.h g) ∧
    (∀ x y, 0 <= x < Life.width g → 0 <= y < Life.h g →
            Next fa x y = Some (cell fb' x y) ∧
            stored fb' x y = Some (cell fb' x y)) ∧
    Life.a (swapped g) = Life.b g ∧ Life.b (swapped g) = Life.a g ∧
    heap w' !! Life.a (swapped g) = Some fb' ∧
    heap w' !! Life.b (swapped g) = Some fa ∧
    (∀ p, p ≠ Life.b g → heap w' !! p = heap w !! p).
Proof.
  intros HI Ha.
  destruct (Step_run g w fa HI Ha) as (fb' & Hstep & Hdb' & Hcells).
  destruct (Inv_swapped g w fa fb' HI Ha Hdb') as (_ & H1 & H2).
  destruct HI as (Hne & fa0 & fb & Ha0 & Hb & Hda & Hdb).
  assert (fa0 = fa) as -> by congruence.
  exists fb'. cbv zeta.
  split; [exact Hstep|]. split; [exact Hdb'|]. split; [|repeat split].
  - intros x y Hx Hy.
    destruct Hda as (Hfa & HWa & HHa). destruct Hdb' as (Hfb' & HWb & HHb).
    rewrite Next_in_field, stored_in_field
      by (unfold in_field; (assumption || lia)).
    rewrite (Hcells x y Hx Hy). split; reflexivity.
  - exact H1.
  - exact H2.
  - intros p Hp. cbn [with_heap heap].
    now rewrite list_lookup_insert_ne by congruence.
Qed.

Lemma Inv_game5 : Inv world5 game5.
Proof.
  split; [discriminate|]. exists blinker5, stale5.
  repeat split; reflexivity.
Qed.

Lemma Step_synchronous_witness :
  Inv world5 game5 ∧ heap world5 !! Life.a game5 = Some blinker5 ∧
  ∃ fb', Step game5 world5
         = Some (swapped game5,
                 with_heap world5 (<[Life.b game5 := fb']> (heap world5))).
Proof.
  split; [exact Inv_game5|]. split; [reflexivity|].
  destruct (Step_synchronous game5 world5 blinker5 Inv_game5 eq_refl)
    as (fb' & Hstep & _).
  exists fb'. exact Hstep.
Defined.

(** ** Patterns on the torus *)

Lemma mod_pred (n x : Z) :
  0 <= x < n → (x + -1) mod n = if x =? 0 then n - 1 else x - 1.
Proof.
  intros Hx. destruct (Z.eqb_spec x 0) as [->|Hne].
  - apply mod_minus_one. lia.
  - rewrite Z.mod_small; lia.
Qed.

Lemma mod_succ (n x : Z) :
  0 <= x < n → (x + 1) mod n = if x =? n - 1 then 0 else x + 1.
Proof.
  intros Hx. destruct (Z.eqb_spec x (n - 1)) as [->|Hne].
  - apply mod_plus_one_top. lia.
  - rewrite Z.mod_small; lia.
Qed.

Lemma mod_self (n x : Z) : 0 <= x < n → (x + 0) mod n = x.
Proof. intros Hx. rewrite Z.add_0_r. apply Z.mod_small. lia. Qed.

(** For a pattern that is a product of a column test and a row test the
    live neighbours are counted line by line. *)
Lemma neighbours_product (f : Field.t) (cp rp : Z → bool) (x y : Z) :
  wf f → shows f (λ x y, cp x && rp y) → in_field f x y →
  neighbours f x y
  = line3 (Field.width f) cp x * line3 (Field.h f) rp y
    - Z.b2z (cp x) * Z.b2z (rp y).
Proof.
  intros Hf Hp [Hx Hy]. pose proof (wf_bounds f Hf) as [HW HH].
  assert (Hc : ∀ i j, cell f ((x + i) mod Field.width f)
                             ((y + j) mod Field.h f)
                      = cp ((x + i) mod Field.width f)
                        && rp ((y + j) mod Field.h f)).
  { intros i j. apply Hp. split; apply Z.mod_pos_bound; lia. }
  unfold neighbours, offsets, line3. cbn [map foldr fst snd].
  rewrite !Hc.
  rewrite !(mod_self (Field.width f) x), !(mod_self (Field.h f) y) by lia.
  repeat match goal with
         | |- context [cp ?u] => generalize (cp u); intros []
         end;
  repeat match goal with
         | |- context [rp ?u] => generalize (rp u); intros []
         end; reflexivity.
Qed.

(** A pair of adjacent positions on a ring of at least 4: a position of
    the pair sees the pair, any other position sees at most one of the
    two. *)
Lemma line3_pair (n c x : Z) :
  4 <= n → 0 <= c → c + 1 < n → 0 <= x < n →
  (in_pair c x = true → line3 n (in_pair c) x = 2) ∧
  (in_pair c x = false → 0 <= line3 n (in_pair c) x <= 1).
Proof.
  intros Hn Hc Hc1 Hx. unfold line3;
    rewrite (mod_pred n x), (mod_succ n x), (mod_self n x) by lia;
    destruct (Z.eqb_spec x 0); destruct (Z.eqb_spec x (n - 1)); cbv iota;
    unfold in_pair;
    split_tests; cbn; split; intros; (discriminate || lia).
Qed.

(** Positions 1, 2, 3 on a ring of at least 5. *)
Lemma line3_mid3 (n x : Z) :
  5 <= n → 0 <= x < n →
  line3 n mid3 x
  = if x =? 2 then 3
    else if (x =? 1) || (x =? 3) then 2
    else if (x =? 0) || (x =? 4) then 1
    else 0.
Proof.
  intros Hn Hx. unfold line3;
    rewrite (mod_pred n x), (mod_succ n x), (mod_self n x) by lia;
    destruct (Z.eqb_spec x 0); destruct (Z.eqb_spec x (n - 1)); cbv iota;
    unfold mid3;
    split_tests; cbn; lia.
Qed.

(** Position 2 on a ring of at least 5. *)
Lemma line3_at2 (n x : Z) :
  5 <= n → 0 <= x < n → line3 n at2 x = Z.b2z (mid3 x).
Proof.
  intros Hn Hx. unfold line3;
    rewrite (mod_pred n x), (mod_succ n x), (mod_self n x) by lia;
    destruct (Z.eqb_spec x 0); destruct (Z.eqb_spec x (n - 1)); cbv iota;
    unfold at2, mid3;
    split_tests; cbn; lia.
Qed.

(** The block is a still life. *)
Lemma block_next (f : Field.t) (bx by' : Z) :
  wf f → 4 <= Field.width f → 4 <= Field.h f →
  0 <= bx → bx + 1 < Field.width f → 0 <= by' → by' + 1 < Field.h f →
  shows f (block bx by') →
  ∀ x y, in_field f x y → next_cell f x y = block bx by' x y.
Proof.
  intros Hf HW HH Hbx Hbx1 Hby Hby1 Hp x y Hin.
  unfold next_cell.
  rewrite (neighbours_product f (in_pair bx) (in_pair by'))
    by assumption.
  rewrite (Hp x y Hin). unfold block. destruct Hin as [Hx Hy].
  destruct (line3_pair (Field.width f) bx x HW Hbx Hbx1 Hx) as [HC1 HC0].
  destruct (line3_pair (Field.h f) by' y HH Hby Hby1 Hy) as [HR1 HR0].
  destruct (in_pair bx x), (in_pair by' y).
  - rewrite HC1, HR1 by reflexivity. reflexivity.
  - rewrite HC1 by reflexivity. specialize (HR0 eq_refl).
    assert (HR : line3 (Field.h f) (in_pair by') y = 0
                 ∨ line3 (Field.h f) (in_pair by') y = 1) by lia.
    destruct HR as [-> | ->]; reflexivity.
  - rewrite HR1 by reflexivity. specialize (HC0 eq_refl).
    assert (HC : line3 (Field.width f) (in_pair bx) x = 0
                 ∨ line3 (Field.width f) (in_pair bx) x = 1) by lia.
    destruct HC as [-> | ->]; reflexivity.
  - specialize (HC0 eq_refl). specialize (HR0 eq_refl).
    assert (HC : line3 (Field.width f) (in_pair bx) x = 0
                 ∨ line3 (Field.width f) (in_pair bx) x = 1) by lia.
    assert (HR : line3 (Field.h f) (in_pair by') y = 0
                 ∨ line3 (Field.h f) (in_pair by') y = 1) by lia.
    destruct HC as [-> | ->], HR as [-> | ->]; reflexivity.
Qed.

(** The lying blinker stands up, the standing blinker lies down. *)
Lemma blinker_h_next (f : Field.t) :
  wf f → 5 <= Field.width f → 5 <= Field.h f →
  shows f blinker_h →
  ∀ x y, in_field f x y → next_cell f x y = blinker_v x y.
Proof.
  intros Hf HW HH Hp x y Hin. unfold next_cell.
  rewrite (neighbours_product f mid3 at2) by assumption.
  rewrite (Hp x y Hin). unfold blinker_h, blinker_v.
  destruct Hin as [Hx Hy].
  rewrite line3_mid3, line3_at2 by assumption.
  unfold mid3, at2. split_tests; reflexivity.
Qed.

Lemma blinker_v_next (f : Field.t) :
  wf f → 5 <= Field.width f → 5 <= Field.h f →
  shows f blinker_v →
  ∀ x y, in_field f x y → next_cell f x y = blinker_h x y.
Proof.
  intros Hf HW HH Hp x y Hin. unfold next_cell.
  rewrite (neighbours_product f at2 mid3) by assumption.
  rewrite (Hp x y Hin). unfold blinker_h, blinker_v.
  destruct Hin as [Hx Hy].
  rewrite line3_mid3, line3_at2 by assumption.
  unfold mid3, at2. split_tests; reflexivity.
Qed.

(** ** Patterns under Step *)

Lemma swapped_swapped (g : Life.t) : swapped (swapped g) = g.
Proof. now destruct g. Qed.

(** A step takes the pattern of the current field to the pattern the
    rule makes of it. *)
Lemma Step_pattern (g : Life.t) (w : World) (fa : Field.t)
      (q : Z → Z → bool) :
  Inv w g → heap w !! Life.a g = Some fa →
  (∀ x y, in_field fa x y → next_cell fa x y = q x y) →
  ∃ w' fb',
    Step g w = Some (swapped g, w') ∧ Inv w' (swapped g) ∧
    heap w' !! Life.a (swapped g) = Some fb' ∧
    has_dims fb' (Life.width g) (Life.h g) ∧ shows fb' q.
Proof.
  intros HI Ha Hq.
  destruct (Step_run g w fa HI Ha) as (fb' & Hstep & Hdb' & Hcells).
  destruct (Inv_swapped g w fa fb' HI Ha Hdb') as (HI' & H1 & _).
  exists (with_heap w (<[Life.b g := fb']> (heap w))), fb'.
  split; [exact Hstep|]. split; [exact HI'|]. split; [exact H1|].
  split; [exact Hdb'|].
  destruct HI as (_ & fa0 & fb & Ha0 & _ & (Hfa & HWa & HHa) & _).
  assert (fa0 = fa) as -> by congruence.
  destruct Hdb' as (Hfb' & HWb & HHb).
  intros x y [Hx Hy]. rewrite Hcells by lia.
  apply Hq. unfold in_field. lia.
Qed.

Lemma Inv_current (g : Life.t) (w : World) (fa : Field.t) :
  Inv w g → heap w !! Life.a g = Some fa →
  has_dims fa (Life.width g) (Life.h g).
Proof.
  intros (_ & fa0 & fb & Ha0 & _ & Hda & _) Ha.
  now assert (fa0 = fa) as -> by congruence.
Qed.

(** C5: the block is a still life.  In a game of at least 4 by 4 whose
    current field shows exactly a 2 by 2 block that does not cross an
    edge, any number of steps returns and leaves the current field
    showing exactly that block, in a field of the same dimensions. *)
Theorem block_still_life (n : nat) (g : Life.t) (w : World) (fa : Field.t)
        (bx by' : Z) :
  Inv w g → heap w !! Life.a g = Some fa →
  4 <= Life.width g → 4 <= Life.h g →
  0 <= bx → bx + 1 < Life.width g → 0 <= by' → by' + 1 < Life.h g →
  shows fa (block bx by') →
  ∃ g' w' fa',
    Steps n g w = Some (g', w') ∧ Inv w' g' ∧
    Life.width g' = Life.width g ∧ Life.h g' = Life.h g ∧
    heap w' !! Life.a g' = Some fa' ∧
    has_dims fa' (Life.width g) (Life.h g) ∧
    shows fa' (block bx by').
Proof.
  revert g w fa. induction n as [|n IH];
    intros g w fa HI Ha HW HH Hbx Hbx1 Hby Hby1 Hp.
  - exists g, w, fa. pose proof (Inv_current g w fa HI Ha) as Hda.
    split; [reflexivity|]. split; [exact HI|]. split; [reflexivity|].
    split; [reflexivity|]. split; [exact Ha|]. split; assumption.
  - destruct (Inv_current g w fa HI Ha) as (Hfa & HWa & HHa).
    destruct (Step_pattern g w fa (block bx by') HI Ha)
      as (w1 & f1 & Hstep & HI1 & Ha1 & Hd1 & Hp1).
    { apply block_next; (assumption || lia). }
    destruct (IH (swapped g) w1 f1 HI1 Ha1 HW HH Hbx Hbx1 Hby Hby1 Hp1)
      as (g' & w' & fa' & Hrun & HI' & HW' & HH' & Ha' & Hd' & Hp').
    exists g', w', fa'.
    split; [cbn [Steps]; now rewrite (bind_Some _ _ _ _ _ Hstep)|].
    split; [exact HI'|]. split; [exact HW'|]. split; [exact HH'|].
    split; [exact Ha'|]. split; assumption.
Qed.

(** C6: the blinker has period two.  In a game of at least 5 by 5 whose
    current field shows exactly the cells (1,2), (2,2), (3,2), one step
    makes the current field show exactly (2,1), (2,2), (2,3), and a
    second step makes it show exactly (1,2), (2,2), (3,2) again. *)
Theorem blinker_period_two (g : Life.t) (w : World) (fa : Field.t) :
  Inv w g → heap w !! Life.a g = Some fa →
  5 <= Life.width g → 5 <= Life.h g →
  shows fa blinker_h →
  ∃ w1 f1 w2 f2,
    Step g w = Some (swapped g, w1) ∧
    heap w1 !! Life.a (swapped g) = Some f1 ∧
    has_dims f1 (Life.width g) (Life.h g) ∧ shows f1 blinker_v ∧
    Step (swapped g) w1 = Some (g, w2) ∧
    heap w2 !! Life.a g = Some f2 ∧
    has_dims f2 (Life.width g) (Life.h g) ∧ shows f2 blinker_h.
Proof.
  intros HI Ha HW HH Hp.
  destruct (Inv_current g w fa HI Ha) as (Hfa & HWa & HHa).
  destruct (Step_pattern g w fa blinker_v HI Ha)
    as (w1 & f1 & Hstep1 & HI1 & Ha1 & Hd1 & Hp1).
  { apply blinker_h_next; (assumption || lia). }
  destruct (Step_pattern (swapped g) w1 f1 blinker_h HI1 Ha1)
    as (w2 & f2 & Hstep2 & HI2 & Ha2 & Hd2 & Hp2).
  { destruct Hd1 as (Hf1 & HW1 & HH1).
    apply blinker_v_next; (assumption || lia). }
  rewrite swapped_swapped in Hstep2, Ha2.
  exists w1, f1, w2, f2.
  split; [exact Hstep1|]. split; [exact Ha1|]. split; [exact Hd1|].
  split; [exact Hp1|]. split; [exact Hstep2|]. split; [exact Ha2|].
  split; [exact Hd2|]. exact Hp2.
Qed.

Lemma Inv_game4 : Inv world4 game4.
Proof.
  split; [discriminate|]. exists block4, stale4.
  repeat split; reflexivity.
Qed.

Lemma block4_shows : shows block4 (block 1 1).
Proof.
  intros x y [Hx Hy]. cbn in Hx, Hy.
  assert (Hxs : x = 0 ∨ x = 1 ∨ x = 2 ∨ x = 3) by lia.
  assert (Hys : y = 0 ∨ y = 1 ∨ y = 2 ∨ y = 3) by lia.
  intuition (subst; reflexivity).
Qed.

Lemma blinker5_shows : shows blinker5 blinker_h.
Proof.
  intros x y [Hx Hy]. cbn in Hx, Hy.
  assert (Hxs : x = 0 ∨ x = 1 ∨ x = 2 ∨ x = 3 ∨ x = 4) by lia.
  assert (Hys : y = 0 ∨ y = 1 ∨ y = 2 ∨ y = 3 ∨ y = 4) by lia.
  intuition (subst; reflexivity).
Qed.

Lemma block_still_life_witness :
  Inv world4 game4 ∧ heap world4 !! Life.a game4 = Some block4 ∧
  shows block4 (block 1 1) ∧
  ∃ g' w' fa',
    Steps 3 game4 world4 = Some (g', w') ∧ Inv w' g' ∧
    Life.width g' = 4 ∧ Life.h g' = 4 ∧
    heap w' !! Life.a g' = Some fa' ∧
    has_dims fa' 4 4 ∧
    shows fa' (block 1 1).
Proof.
  split; [exact Inv_game4|]. split; [reflexivity|].
  split; [exact block4_shows|].
  apply (block_still_life 3 game4 world4 block4 1 1);
    [exact Inv_game4 | reflexivity | cbn; lia | cbn; lia | lia | cbn; lia
     | lia | cbn; lia | exact block4_shows].
Defined.

Lemma blinker_period_two_witness :
  Inv world5 game5 ∧ heap world5 !! Life.a game5 = Some blinker5 ∧
  shows blinker5 blinker_h ∧
  ∃ w1 f1 w2 f2,
    Step game5 world5 = Some (swapped game5, w1) ∧
    heap w1 !! Life.a (swapped game5) = Some f1 ∧
    has_dims f1 5 5 ∧ shows f1 blinker_v ∧
    Step (swapped game5) w1 = Some (game5, w2) ∧
    heap w2 !! Life.a game5 = Some f2 ∧
    has_dims f2 5 5 ∧ shows f2 blinker_h.
Proof.
  split; [exact Inv_game5|]. split; [reflexivity|].
  split; [exact blinker5_shows|].
  apply (blinker_period_two game5 world5 blinker5);
    [exact Inv_game5 | reflexivity | cbn; lia | cbn; lia
     | exact blinker5_shows].
Defined.

(** ** String *)

Lemma seqZ_snoc (i : Z) : 0 <= i → seqZ 0 (i + 1) = seqZ 0 i ++ [i].
Proof. intros Hi. rewrite seqZ_app by lia. reflexivity. Qed.

(** The cells of row [y], read from left to right, are the stored row. *)
Lemma cells_of_row (f : Field.t) (y : Z) (row : list bool) :
  wf f → 0 <= y → Field.s f !! Z.to_nat y = Some row →
  map (λ x, cell f x y) (seqZ 0 (Field.width f)) = row.
Proof.
  intros Hf Hy Hrow. pose proof (wf_elim f Hf) as (_ & _ & _ & Hr & _).
  rewrite Forall_forall in Hr.
  assert (Hlen : Z.of_nat (length row) = Field.width f)
    by (apply Hr; eapply list_elem_of_lookup_2; eauto).
  apply list_eq. intros i. rewrite list_lookup_fmap.
  destruct (decide (Z.of_nat i < Field.width f)) as [Hlt|Hge].
  - rewrite lookup_seqZ_lt by lia. cbn [fmap option_fmap option_map].
    unfold cell, stored. rewrite Hrow. cbn [mbind option_bind].
    rewrite Z.add_0_l, Nat2Z.id.
    destruct (lookup_lt_is_Some_2 row i) as [c Hc]; [lia|].
    now rewrite Hc.
  - rewrite lookup_seqZ_ge by lia. symmetry. apply lookup_ge_None. lia.
Qed.

(** The rows of a field, from top to bottom. *)
Lemma rows_of_field (f : Field.t) :
  wf f →
  map (λ y, map (λ x, cell f x y) (seqZ 0 (Field.width f)))
      (seqZ 0 (Field.h f))
  = Field.s f.
Proof.
  intros Hf. pose proof (wf_elim f Hf) as (_ & _ & Hl & _).
  apply list_eq. intros i. rewrite list_lookup_fmap.
  destruct (decide (Z.of_nat i < Field.h f)) as [Hlt|Hge].
  - rewrite lookup_seqZ_lt by lia. cbn [fmap option_fmap option_map].
    destruct (lookup_lt_is_Some_2 (Field.s f) i) as [row Hrow]; [lia|].
    rewrite Hrow. f_equal. rewrite Z.add_0_l.
    apply cells_of_row; [assumption | lia | now rewrite Nat2Z.id].
  - rewrite lookup_seqZ_ge by lia. symmetry. apply lookup_ge_None. lia.
Qed.

(** One line of the text: the glyphs of the row, then the terminator;
    the world is only read. *)
Lemma String_row_spec (g : Life.t) (w : World) (fa : Field.t) (y : Z)
      (buf : list byte) :
  heap w !! Life.a g = Some fa →
  has_dims fa (Life.width g) (Life.h g) →
  0 <= y < Life.h g →
  String_row g y buf w
  = Some (buf ++ render_row (map (λ x, cell fa x y)
                                 (seqZ 0 (Life.width g))), w).
Proof.
  intros Ha (Hfa & HWa & HHa) Hy.
  pose proof (wf_bounds fa Hfa) as [HW _]. rewrite HWa in HW.
  destruct (foldM_seqZ
              (λ i buf' w',
                 w' = w ∧
                 buf' = buf ++ map glyph (map (λ x, cell fa x y) (seqZ 0 i)))
              (λ x buf, do fa <- load (Life.a g);
                        do c <- lift (Alive fa x y);
                        ret (buf ++ [glyph c]))
              (Life.width g) buf w)
    as (buf' & w' & Hrun & -> & ->).
  - lia.
  - split; [reflexivity|]. cbn. now rewrite app_nil_r.
  - intros i acc w1 Hi [-> ->]. eexists _, w. split.
    + unfold bind, load, lift, ret. rewrite Ha.
      rewrite Alive_in_field by (unfold in_field; (assumption || lia)).
      reflexivity.
    + split; [reflexivity|].
      rewrite seqZ_snoc, !map_app by lia. cbn [map].
      now rewrite app_assoc.
  - unfold String_row. rewrite (bind_Some _ _ _ _ _ Hrun).
    unfold ret, render_row. now rewrite app_assoc.
Qed.

Lemma String_spec (g : Life.t) (w : World) (fa : Field.t) :
  Inv w g → heap w !! Life.a g = Some fa →
  String g w = Some (render fa, w).
Proof.
  intros HI Ha. pose proof (Inv_current g w fa HI Ha) as Hda.
  pose proof Hda as (Hfa & HWa & HHa).
  pose proof (wf_bounds fa Hfa) as [_ HH]. rewrite HHa in HH.
  destruct (foldM_seqZ
              (λ i buf' w',
                 w' = w ∧
                 buf' = concat (map render_row
                            (map (λ y, map (λ x, cell fa x y)
                                           (seqZ 0 (Life.width g)))
                                 (seqZ 0 i))))
              (String_row g) (Life.h g) [] w)
    as (buf' & w' & Hrun & -> & ->).
  - lia.
  - split; reflexivity.
  - intros i acc w1 Hi [-> ->]. eexists _, w. split.
    + apply (String_row_spec g w fa); assumption.
    + split; [reflexivity|].
      rewrite seqZ_snoc, !map_app, concat_app by lia. cbn [map concat].
      now rewrite app_nil_r.
  - unfold String. rewrite Hrun. unfold render.
    rewrite <- HWa, <- HHa, rows_of_field by assumption. reflexivity.
Qed.

Lemma lookup_concat_uniform {A : Type} (ls : list (list A)) (k i j : nat)
      (l : list A) :
  Forall (λ l, length l = k) ls → ls !! i = Some l → (j < k)%nat →
  concat ls !! (i * k + j)%nat = l !! j.
Proof.
  revert i. induction ls as [|l0 ls IH]; intros i Hk Hi Hj.
  - discriminate.
  - apply Forall_cons in Hk as [Hk0 Hk]. cbn [concat].
    destruct i as [|i].
    + injection Hi as ->. cbn. apply lookup_app_l. lia.
    + cbn in Hi. rewrite lookup_app_r by lia.
      replace (S i * k + j - length l0)%nat with (i * k + j)%nat by lia.
      now apply IH.
Qed.

Lemma length_concat_uniform {A : Type} (ls : list (list A)) (k : nat) :
  Forall (λ l, length l = k) ls → length (concat ls) = (length ls * k)%nat.
Proof.
  induction 1 as [|l ls Hl _ IH]; [reflexivity|].
  cbn [concat length]. rewrite length_app, IH. lia.
Qed.

Lemma render_rows_uniform (f : Field.t) :
  wf f →
  Forall (λ l, length l = Z.to_nat (Field.width f + 1))
         (map render_row (Field.s f)).
Proof.
  intros Hf. pose proof (wf_elim f Hf) as (_ & _ & _ & Hr & _).
  apply Forall_fmap. eapply Forall_impl; [exact Hr|].
  intros row Hrow. unfold compose, render_row. cbv beta in *.
  rewrite length_app, length_map. cbn [length]. lia.
Qed.

(** Where each byte of the text sits. *)
Lemma render_layout (f : Field.t) :
  wf f →
  Z.of_nat (length (render f)) = Field.h f * (Field.width f + 1) ∧
  ∀ x y, in_field f x y →
    render f !! Z.to_nat (y * (Field.width f + 1) + x)
      = Some (glyph (cell f x y)) ∧
    render f !! Z.to_nat (y * (Field.width f + 1) + Field.width f)
      = Some newline.
Proof.
  intros Hf. pose proof (wf_elim f Hf) as (HW & HH & Hl & Hr & _).
  pose proof (render_rows_uniform f Hf) as Hu. unfold render. split.
  - rewrite (length_concat_uniform _ _ Hu), length_map. lia.
  - intros x y [Hx Hy].
    destruct (lookup_lt_is_Some_2 (Field.s f) (Z.to_nat y)) as [row Hrow];
      [lia|].
    rewrite Forall_forall in Hr.
    assert (Hlen : Z.of_nat (length row) = Field.width f)
      by (apply Hr; eapply list_elem_of_lookup_2; eauto).
    assert (Hrr : map render_row (Field.s f) !! Z.to_nat y
                  = Some (render_row row))
      by (now rewrite list_lookup_fmap, Hrow).
    replace (Z.to_nat (y * (Field.width f + 1) + x))
      with (Z.to_nat y * Z.to_nat (Field.width f + 1) + Z.to_nat x)%nat
      by nia.
    replace (Z.to_nat (y * (Field.width f + 1) + Field.width f))
      with (Z.to_nat y * Z.to_nat (Field.width f + 1)
            + Z.to_nat (Field.width f))%nat
      by nia.
    rewrite !(lookup_concat_uniform _ _ _ _ _ Hu Hrr) by lia.
    unfold render_row. split.
    + rewrite lookup_app_l by (rewrite length_map; lia).
      rewrite list_lookup_fmap.
      pose proof (stored_in_field f x y Hf (conj Hx Hy)) as Hs.
      unfold stored in Hs. rewrite Hrow in Hs. cbn in Hs.
      now rewrite Hs.
    + rewrite lookup_app_r by (rewrite length_map; lia).
      rewrite length_map.
      replace (Z.to_nat (Field.width f) - length row)%nat with 0%nat by lia.
      reflexivity.
Qed.

(** Fields of the same dimensions with the same cells are stored alike. *)
Lemma same_cells_same_rows (f1 f2 : Field.t) :
  wf f1 → wf f2 →
  Field.width f1 = Field.width f2 → Field.h f1 = Field.h f2 →
  (∀ x y, in_field f1 x y → cell f1 x y = cell f2 x y) →
  Field.s f1 = Field.s f2.
Proof.
  intros Hf1 Hf2 HW HH Hc.
  rewrite <- (rows_of_field f1 Hf1), <- (rows_of_field f2 Hf2).
  rewrite <- HW, <- HH. apply map_ext_in. intros y Hy.
  apply map_ext_in. intros x Hx.
  apply list_elem_of_In, elem_of_seqZ in Hx, Hy.
  apply Hc. unfold in_field. lia.
Qed.

(** C7: the text of the game.  [String] returns, leaves the world as it
    was, and its result is the stored rows of the current field in
    order, each cell as ['*'] when alive and as [' '] when dead, in
    column order, each row followed by a line feed: [h] lines of [width]
    glyphs, none of which is a line feed.  Two games whose current
    fields have the same dimensions and the same cells give the same
    bytes. *)
Theorem String_renders (g : Life.t) (w : World) (fa : Field.t) :
  Inv w g → heap w !! Life.a g = Some fa →
  String g w = Some (render fa, w) ∧
  render fa = concat (map (λ row, map glyph row ++ [newline]) (Field.s fa)) ∧
  Z.of_nat (length (Field.s fa)) = Life.h g ∧
  Forall (λ row, Z.of_nat (length row) = Life.width g) (Field.s fa) ∧
  glyph true = x2a ∧ glyph false = x20 ∧ newline = x0a ∧
  Z.of_nat (length (render fa)) = Life.h g * (Life.width g + 1) ∧
  (∀ x y, 0 <= x < Life.width g → 0 <= y < Life.h g →
     render fa !! Z.to_nat (y * (Life.width g + 1) + x)
       = Some (glyph (cell fa x y)) ∧
     render fa !! Z.to_nat (y * (Life.width g + 1) + Life.width g)
       = Some newline) ∧
  (∀ g2 w2 fa2,
     Inv w2 g2 → heap w2 !! Life.a g2 = Some fa2 →
     Life.width g2 = Life.width g → Life.h g2 = Life.h g →
     (∀ x y, 0 <= x < Life.width g → 0 <= y < Life.h g →
             cell fa2 x y = cell fa x y) →
     fst <$> String g2 w2 = fst <$> String g w).
Proof.
  intros HI Ha. pose proof (Inv_current g w fa HI Ha) as (Hfa & HWa & HHa).
  pose proof (wf_elim fa Hfa) as (_ & _ & Hl & Hr & _).
  pose proof (render_layout fa Hfa) as [Hlen Hpos].
  rewrite HWa, HHa in *.
  split; [now apply String_spec|]. split; [reflexivity|].
  split; [exact Hl|]. split; [exact Hr|].
  split; [reflexivity|]. split; [reflexivity|]. split; [reflexivity|].
  split; [exact Hlen|]. split.
  - intros x y Hx Hy. apply Hpos. unfold in_field. lia.
  - intros g2 w2 fa2 HI2 Ha2 HW2 HH2 Hc.
    pose proof (Inv_current g2 w2 fa2 HI2 Ha2) as (Hfa2 & HWa2 & HHa2).
    rewrite (String_spec g2 w2 fa2 HI2 Ha2), (String_spec g w fa HI Ha).
    assert (Hs : Field.s fa2 = Field.s fa).
    { apply same_cells_same_rows; try assumption; try congruence.
      intros x y [Hx Hy]. apply Hc; lia. }
    unfold render. now rewrite Hs.
Qed.

Lemma String_renders_witness :
  Inv world5 game5 ∧ heap world5 !! Life.a game5 = Some blinker5 ∧
  String game5 world5 = Some (render blinker5, world5).
Proof.
  split; [exact Inv_game5|]. split; [reflexivity|].
  apply (String_renders game5 world5 blinker5 Inv_game5 eq_refl).
Defined.

(** ** NewField *)

Lemma forZ_range {St : Type} (I : Z → St → Prop)
      (body : Z → St → option St) (n : Z) :
  (∀ i acc, 0 <= i < n → I i acc →
            ∃ acc', body i acc = Some acc' ∧ I (i + 1) acc') →
  ∀ (k : nat) (m : Z) acc,
    0 <= m → m + Z.of_nat k = n → I m acc →
    ∃ acc', forZ (seqZ m (Z.of_nat k)) body acc = Some acc' ∧ I n acc'.
Proof.
  intros Hbody k. induction k as [|k IH]; intros m acc Hm Hn HI.
  - exists acc. replace n with m by lia. split; [reflexivity | assumption].
  - rewrite seqZ_cons by lia. cbn [forZ].
    destruct (Hbody m acc ltac:(lia) HI) as (acc1 & Hb & HI1).
    rewrite Hb.
    replace (Z.pred (Z.of_nat (S k))) with (Z.of_nat k) by lia.
    apply IH; [lia | lia |]. now replace (Z.succ m) with (m + 1) by lia.
Qed.

Lemma make_ok {A : Type} (size : Z) (zero : A) (n : Z) :
  0 <= n → n * size <= maxAlloc →
  make size zero n = Some (replicate (Z.to_nat n) zero).
Proof.
  intros Hn Hs. unfold make.
  destruct (Z.leb_spec 0 n); [|lia].
  destruct (Z.leb_spec (n * size) maxAlloc); [reflexivity | lia].
Qed.

Lemma make_refused {A : Type} (size : Z) (zero : A) (n : Z) :
  maxAlloc < n * size → make size zero n = None.
Proof.
  intros Hn. unfold make.
  destruct (Z.leb_spec (n * size) maxAlloc); [lia|].
  now rewrite andb_false_r.
Qed.

(** The loop of [NewField] fills every row. *)
Lemma NewField_rows (width h : Z) :
  0 <= width <= maxAlloc → 0 <= h →
  forZ (seqZ 0 (Z.of_nat (length (replicate (Z.to_nat h) ([] : list bool)))))
       (λ i s, row ← make sizeof_bool false width;
               Some (<[Z.to_nat i := row]> s))
       (replicate (Z.to_nat h) [])
  = Some (replicate (Z.to_nat h) (replicate (Z.to_nat width) false)).
Proof.
  intros HW HH. rewrite length_replicate.
  set (row := replicate (Z.to_nat width) false).
  destruct (forZ_range
              (λ i (s : list (list bool)),
                 length s = Z.to_nat h ∧
                 ∀ j, (j < Z.to_nat i)%nat → s !! j = Some row)
              (λ i s, row ← make sizeof_bool false width;
                      Some (<[Z.to_nat i := row]> s))
              (Z.of_nat (Z.to_nat h)))
    with (k := Z.to_nat h) (m := 0) (acc := replicate (Z.to_nat h) ([] : list bool))
    as (s & Hrun & Hlen & Hrows).
  - intros i acc Hi [Hlen Hrows].
    rewrite make_ok by (unfold sizeof_bool; lia).
    eexists. split; [reflexivity|]. fold row. split.
    + now rewrite length_insert.
    + intros j Hj. destruct (decide (j = Z.to_nat i)) as [->|Hne].
      * apply list_lookup_insert_eq. lia.
      * rewrite list_lookup_insert_ne by congruence. apply Hrows. lia.
  - lia.
  - lia.
  - split; [apply length_replicate|]. intros j Hj. lia.
  - rewrite Hrun. f_equal. apply list_eq. intros j.
    destruct (decide (j < Z.to_nat h)%nat) as [Hlt|Hge].
    + rewrite Hrows by lia. symmetry. now apply lookup_replicate_2.
    + rewrite (proj2 (lookup_ge_None _ _)) by lia.
      symmetry. apply lookup_ge_None. rewrite length_replicate. lia.
Qed.

Lemma bytes_dead (width h : Z) :
  0 <= width → 0 <= h → bytes (dead width h) = width * h.
Proof.
  intros HW HH. unfold bytes, dead. cbn [Field.s].
  rewrite (length_concat_uniform _ (Z.to_nat width)).
  - rewrite length_replicate. nia.
  - apply Forall_replicate. apply length_replicate.
Qed.

Lemma dead_wf (width h : Z) :
  0 < width → 0 < h → width * h <= maxAlloc → wf (dead width h).
Proof.
  intros HW HH Hm. apply wf_intro; cbn [dead Field.s Field.width Field.h];
    try assumption.
  - rewrite length_replicate. lia.
  - apply Forall_replicate. rewrite length_replicate. lia.
Qed.

Lemma dead_cell (width h x y : Z) : cell (dead width h) x y = false.
Proof.
  unfold cell, stored, dead. cbn [Field.s].
  destruct (replicate (Z.to_nat h) _ !! Z.to_nat y) as [row|] eqn:Hrow;
    [|reflexivity].
  apply lookup_replicate in Hrow as [-> _]. cbn [mbind option_bind].
  destruct (replicate (Z.to_nat width) false !! Z.to_nat x) as [c|] eqn:Hc;
    [|reflexivity].
  now apply lookup_replicate in Hc as [-> _].
Qed.

(** The dimensions [NewField] can serve: the slice of rows and the
    cells both fit the memory. *)
Lemma NewField_spec (width h : Z) (w : World) :
  0 < width → 0 < h →
  NewField width h w
  = if fits width h
    then Some (length (heap w), with_heap w (heap w ++ [dead width h]))
    else None.
Proof.
  intros HW HH. unfold NewField, fits.
  destruct (Z.leb_spec (h * sizeof_slice) maxAlloc) as [Hh|Hh];
    cbn [andb].
  - unfold bind at 1. unfold lift at 1. rewrite make_ok by lia.
    destruct (Z.leb_spec (width * sizeof_bool) maxAlloc) as [Hw|Hw].
    + unfold bind, lift.
      rewrite NewField_rows by (unfold sizeof_bool in *; lia).
      unfold alloc. fold (dead width h). rewrite bytes_dead by lia.
      reflexivity.
    + unfold bind, lift. rewrite length_replicate.
      rewrite seqZ_cons by lia. cbn [forZ].
      rewrite make_refused by lia. cbn [mbind option_bind].
      unfold sizeof_bool in *.
      destruct (Z.leb_spec (width * h) maxAlloc); [nia | reflexivity].
  - unfold bind, lift. rewrite make_refused by lia. reflexivity.
Qed.

(** ** Population *)

Lemma count_true_insert (l : list bool) (i : nat) :
  (count_true (<[i := true]> l) <= S (count_true l))%nat.
Proof.
  revert i. induction l as [|c l IH]; intros i; [simpl; lia|].
  destruct i as [|i]; simpl.
  - destruct c; lia.
  - specialize (IH i). lia.
Qed.

Lemma population_updated (f : Field.t) (x y : Z) :
  population (updated f x y true) <= population f + 1.
Proof.
  unfold population, updated. cbn [Field.s].
  generalize (Z.to_nat y) as i. generalize (Field.s f) as rows.
  induction rows as [|row rows IH]; intros i; [simpl; lia|].
  destruct i as [|i]; simpl.
  - pose proof (count_true_insert row (Z.to_nat x)). lia.
  - specialize (IH i). unfold alter in IH. lia.
Qed.

Lemma population_dead (width h : Z) : population (dead width h) = 0.
Proof.
  unfold population, dead. cbn [Field.s].
  assert (Hrow : ∀ n, count_true (replicate n false) = 0%nat)
    by (induction n; cbn; auto).
  induction (Z.to_nat h) as [|n IH]; [reflexivity|].
  cbn. rewrite Hrow. cbn. exact IH.
Qed.

(** ** NewLife *)

Lemma insert_last {A : Type} (l : list A) (u v : A) :
  <[length l := v]> (l ++ [u]) = l ++ [v].
Proof.
  rewrite insert_app_r_alt by lia.
  now replace (length l - length l)%nat with 0%nat by lia.
Qed.

Lemma quarter (width h : Z) :
  0 < width → 0 < h → width * h <= maxAlloc →
  Int.quo (Int.mul width h) 4 = Some (width * h / 4).
Proof.
  intros HW HH Hm. pose proof maxAlloc_bound as Hb.
  unfold Int.quo, Int.mul. cbn [Z.eqb].
  assert (H0 : 0 <= width * h) by nia.
  rewrite (wrap_small (width * h))
    by (unfold Int.in_range, Int.min_int, Int.max_int in *; lia).
  rewrite Z.quot_div_nonneg by lia.
  pose proof (Z.div_pos (width * h) 4 H0 ltac:(lia)).
  pose proof (Z.div_le_upper_bound (width * h) 4 (width * h)
                ltac:(lia) ltac:(lia)).
  rewrite wrap_small
    by (unfold Int.in_range, Int.min_int, Int.max_int in *; lia).
  reflexivity.
Qed.

(** The seeding loop, one placement after the other. *)
Lemma NewLife_seeding (width h n : Z) (w : World) :
  0 < width → 0 < h → width * h <= maxAlloc → 0 <= n →
  ∃ fa,
    foldM (seqZ 0 n)
          (λ _ u,
             do x <- Intn width;
             do y <- Intn h;
             do f <- load (length (heap w));
             do f' <- lift (Set_ f x y true);
             store (length (heap w)) f')
          tt
          (with_heap w (heap w ++ [dead width h]))
    = Some (tt, mkWorld (heap w ++ [fa]) (draws w)
                        (drawn w + 2 * Z.to_nat n)) ∧
    has_dims fa width h ∧
    population fa <= n ∧
    (∀ x y, 0 <= x < width → 0 <= y < h →
            (cell fa x y = true ↔
             ∃ j, 0 <= j < n ∧ placement w width h j = (x, y))).
Proof.
  intros HW HH Hm Hn.
  destruct (foldM_seqZ
    (λ k (_ : unit) w',
       ∃ fa, w' = mkWorld (heap w ++ [fa]) (draws w)
                          (drawn w + 2 * Z.to_nat k) ∧
             has_dims fa width h ∧
             population fa <= k ∧
             (∀ x y, 0 <= x < width → 0 <= y < h →
                     (cell fa x y = true ↔
                      ∃ j, 0 <= j < k ∧ placement w width h j = (x, y))))
    (λ _ u,
       do x <- Intn width;
       do y <- Intn h;
       do f <- load (length (heap w));
       do f' <- lift (Set_ f x y true);
       store (length (heap w)) f')
    n tt (with_heap w (heap w ++ [dead width h])))
    as ([] & w' & Hrun & fa & -> & Hd & Hpop & Hcells).
  - exact Hn.
  - exists (dead width h). split; [|split; [|split]].
    + unfold with_heap. f_equal. cbn. lia.
    + split; [now apply dead_wf | split; reflexivity].
    + rewrite population_dead. lia.
    + intros x y Hx Hy. rewrite dead_cell. split; [discriminate|].
      intros (j & Hj & _). lia.
  - intros k [] w1 Hk (fa & -> & Hd & Hpop & Hcells).
    destruct Hd as (Hfa & HWa & HHa).
    set (x := draws w (drawn w + 2 * Z.to_nat k)%nat mod width).
    set (y := draws w (drawn w + 2 * Z.to_nat k + 1)%nat mod h).
    assert (Hx : 0 <= x < width) by (apply Z.mod_pos_bound; lia).
    assert (Hy : 0 <= y < h) by (apply Z.mod_pos_bound; lia).
    assert (Hin : in_field fa x y) by (unfold in_field; lia).
    exists tt, (mkWorld (heap w ++ [updated fa x y true]) (draws w)
                        (drawn w + 2 * Z.to_nat (k + 1))).
    split.
    + unfold bind, Intn, load, lift, store.
      destruct (Z.leb_spec width 0); [lia|].
      destruct (Z.leb_spec h 0); [lia|].
      cbn [heap draws drawn].
      rewrite list_lookup_middle by reflexivity.
      replace (S (drawn w + 2 * Z.to_nat k))
        with (drawn w + 2 * Z.to_nat k + 1)%nat by lia.
      fold x y. rewrite Set_in_field by assumption.
      cbn [heap]. rewrite list_lookup_middle by reflexivity.
      unfold with_heap. cbn [heap draws drawn]. rewrite insert_last.
      do 3 f_equal. lia.
    + exists (updated fa x y true). split; [reflexivity|].
      split; [apply has_dims_updated; now repeat split|].
      split; [pose proof (population_updated fa x y); lia|].
      intros x' y' Hx' Hy'.
      rewrite cell_updated by (unfold in_field; (assumption || lia)).
      destruct (Z.eqb_spec x' x) as [Ex|Nx];
        destruct (Z.eqb_spec y' y) as [Ey|Ny]; cbn [andb].
      * split; [|reflexivity]. intros _. exists k.
        split; [lia|]. unfold placement. fold x y. congruence.
      * rewrite Hcells by assumption. split.
        -- intros (j & Hj & Hp). exists j. split; [lia | exact Hp].
        -- intros (j & Hj & Hp). destruct (decide (j = k)) as [->|Hne].
           ++ unfold placement in Hp. fold x y in Hp. congruence.
           ++ exists j. split; [lia | exact Hp].
      * rewrite Hcells by assumption. split.
        -- intros (j & Hj & Hp). exists j. split; [lia | exact Hp].
        -- intros (j & Hj & Hp). destruct (decide (j = k)) as [->|Hne].
           ++ unfold placement in Hp. fold x y in Hp. congruence.
           ++ exists j. split; [lia | exact Hp].
      * rewrite Hcells by assumption. split.
        -- intros (j & Hj & Hp). exists j. split; [lia | exact Hp].
        -- intros (j & Hj & Hp). destruct (decide (j = k)) as [->|Hne].
           ++ unfold placement in Hp. fold x y in Hp. congruence.
           ++ exists j. split; [lia | exact Hp].
  - exists fa. split; [exact Hrun|]. split; [exact Hd|].
    split; [exact Hpop | exact Hcells].
Qed.

Lemma fits_cells (width h : Z) :
  fits width h = true → width * h <= maxAlloc.
Proof.
  unfold fits. rewrite andb_true_iff. intros [_ Hc]. now apply Z.leb_le.
Qed.

Lemma NewLife_refused (width h : Z) (w : World) :
  0 < width → 0 < h → fits width h = false → NewLife width h w = None.
Proof.
  intros HW HH Hm. unfold NewLife. unfold bind at 1.
  rewrite NewField_spec, Hm by assumption. reflexivity.
Qed.

(** [NewLife] when the cells fit the memory. *)
Lemma NewLife_run (width h : Z) (w : World) :
  0 < width → 0 < h → fits width h = true →
  ∃ fa,
    NewLife width h w
    = Some (Life.mk (length (heap w)) (S (length (heap w))) width h,
            mkWorld (heap w ++ [fa; dead width h]) (draws w)
                    (drawn w + 2 * Z.to_nat (width * h / 4))) ∧
    has_dims fa width h ∧
    population fa <= width * h / 4 ∧
    (∀ x y, 0 <= x < width → 0 <= y < h →
            (cell fa x y = true ↔
             ∃ j, 0 <= j < width * h / 4 ∧ placement w width h j = (x, y))).
Proof.
  intros HW HH Hfit. pose proof (fits_cells width h Hfit) as Hm.
  assert (Hn : 0 <= width * h / 4) by (apply Z.div_pos; nia).
  destruct (NewLife_seeding width h (width * h / 4) w HW HH Hm Hn)
    as (fa & Hrun & Hd & Hpop & Hcells).
  exists fa. split; [|split; [exact Hd|split; [exact Hpop | exact Hcells]]].
  unfold NewLife.
  erewrite bind_Some by (rewrite NewField_spec, Hfit by assumption;
                         reflexivity).
  erewrite bind_Some by (unfold lift; rewrite quarter by assumption;
                         reflexivity).
  erewrite bind_Some by exact Hrun.
  erewrite bind_Some by (rewrite NewField_spec, Hfit by assumption;
                         reflexivity).
  unfold ret, with_heap. cbn [heap draws drawn].
  rewrite length_app, <- app_assoc. cbn [length app].
  do 3 f_equal. f_equal. lia.
Qed.

Lemma Inv_NewLife (width h : Z) (w w' : World) (g : Life.t) :
  0 < width → 0 < h → NewLife width h w = Some (g, w') →
  Inv w' g ∧ Life.width g = width ∧ Life.h g = h.
Proof.
  intros HW HH Hnew.
  destruct (fits width h) eqn:Hfit.
  - pose proof (fits_cells width h Hfit) as Hm.
    destruct (NewLife_run width h w HW HH Hfit) as (fa & Hrun & Hd & _).
    rewrite Hrun in Hnew. injection Hnew as <- <-.
    split; [|split; reflexivity]. split; [cbn; lia|].
    exists fa, (dead width h). cbn [Life.a Life.b Life.width Life.h heap].
    split; [now rewrite list_lookup_middle|].
    split.
    { replace (heap w ++ [fa; dead width h])
        with ((heap w ++ [fa]) ++ [dead width h])
        by (now rewrite <- app_assoc).
      rewrite list_lookup_middle; [reflexivity|].
      rewrite length_app. cbn. lia. }
    split; [exact Hd|].
    split; [now apply dead_wf | split; reflexivity].
  - rewrite NewLife_refused in Hnew by assumption. discriminate.
Qed.

Lemma NewLife_returns_fits (width h : Z) (w w' : World) (g : Life.t) :
  0 < width → 0 < h → NewLife width h w = Some (g, w') →
  fits width h = true.
Proof.
  intros HW HH Hnew. destruct (fits width h) eqn:Hfit; [reflexivity|].
  rewrite NewLife_refused in Hnew by assumption. discriminate.
Qed.

(** A placement reads its own two draws: another random source that
    differs at them only gives every other placement the same cell. *)
Lemma placement_own_draws (w : World) (width h : Z) (d : nat → Z) (j : Z) :
  0 <= j →
  (∀ k, k ≠ (drawn w + 2 * Z.to_nat j)%nat →
        k ≠ (drawn w + 2 * Z.to_nat j + 1)%nat → d k = draws w k) →
  ∀ j', 0 <= j' → j' ≠ j →
        placement (with_draws w d) width h j' = placement w width h j'.
Proof.
  intros Hj Hd j' Hj' Hne. unfold placement, with_draws.
  cbn [draws drawn]. rewrite !Hd by lia. reflexivity.
Qed.

Lemma even_double (n : nat) : Nat.even (2 * n) = true.
Proof. apply Nat.even_spec. now exists n. Qed.

Lemma even_succ_double (n : nat) : Nat.even (2 * n + 1) = false.
Proof.
  destruct (Nat.even (2 * n + 1)) eqn:He; [|reflexivity].
  apply Nat.even_spec in He as [m Hm]. lia.
Qed.

(** Under the source [sourced w t] the placements are the cells that
    [t] names. *)
Lemma sourced_placement (w : World) (width h : Z) (t : Z → Z * Z) (j : Z) :
  0 <= j → 0 <= fst (t j) < width → 0 <= snd (t j) < h →
  placement (with_draws w (sourced w t)) width h j = t j.
Proof.
  intros Hj Hx Hy. unfold placement, with_draws, sourced.
  cbn [draws drawn].
  destruct (Nat.ltb_spec (drawn w + 2 * Z.to_nat j) (drawn w)); [lia|].
  destruct (Nat.ltb_spec (drawn w + 2 * Z.to_nat j + 1) (drawn w)); [lia|].
  replace (drawn w + 2 * Z.to_nat j - drawn w)%nat
    with (2 * Z.to_nat j)%nat by lia.
  replace (drawn w + 2 * Z.to_nat j + 1 - drawn w)%nat
    with (2 * Z.to_nat j + 1)%nat by lia.
  rewrite even_double, even_succ_double.
  rewrite Nat.div2_double.
  replace (2 * Z.to_nat j + 1)%nat with (S (2 * Z.to_nat j)) by lia.
  rewrite Nat.div2_succ_double, Z2Nat.id by lia.
  rewrite !Z.mod_small by lia. now destruct (t j).
Qed.

(** C8, amended: the construction.  Whenever [NewLife] returns on
    positive dimensions, it has built a game of those dimensions on two
    fresh, distinct fields of those dimensions, and it has made exactly
    floor(width*h/4) placements: it has drawn 2 * floor(width*h/4)
    numbers, two for each placement; every placement is an in-range
    cell; the live cells of the current field are exactly the placed
    ones, so they number at most floor(width*h/4), fewer when
    placements coincide; and the scratch field is entirely dead.  The
    placements are independent: each reads its own two draws, so that a
    random source differing at them only leaves every other placement
    where it was, and for every choice of floor(width*h/4) in-range
    cells there is a random source under which [NewLife] returns with
    exactly these placements. *)
Theorem NewLife_seeds (width h : Z) (w w' : World) (g : Life.t) :
  0 < width → 0 < h → NewLife width h w = Some (g, w') →
  let n := width * h / 4 in
  (∃ fa fb,
     Life.width g = width ∧ Life.h g = h ∧ Life.a g ≠ Life.b g ∧
     heap w !! Life.a g = None ∧ heap w !! Life.b g = None ∧
     heap w' !! Life.a g = Some fa ∧ heap w' !! Life.b g = Some fb ∧
     has_dims fa width h ∧ has_dims fb width h ∧
     draws w' = draws w ∧
     drawn w' = (drawn w + 2 * Z.to_nat n)%nat ∧
     (∀ j, 0 <= j < n →
           0 <= fst (placement w width h j) < width ∧
           0 <= snd (placement w width h j) < h) ∧
     (∀ x y, 0 <= x < width → 0 <= y < h →
             (cell fa x y = true ↔
              ∃ j, 0 <= j < n ∧ placement w width h j = (x, y))) ∧
     0 <= population fa <= n ∧
     population fb = 0 ∧ (∀ x y, cell fb x y = false)) ∧
  (∀ (d : nat → Z) (j : Z),
     0 <= j →
     (∀ k, k ≠ (drawn w + 2 * Z.to_nat j)%nat →
           k ≠ (drawn w + 2 * Z.to_nat j + 1)%nat → d k = draws w k) →
     ∀ j', 0 <= j' → j' ≠ j →
           placement (with_draws w d) width h j'
           = placement w width h j') ∧
  (∀ t : Z → Z * Z,
     (∀ j, 0 <= j < n → 0 <= fst (t j) < width ∧ 0 <= snd (t j) < h) →
     ∃ g2 w2 fa2,
       NewLife width h (with_draws w (sourced w t)) = Some (g2, w2) ∧
       heap w2 !! Life.a g2 = Some fa2 ∧
       (∀ j, 0 <= j < n →
             placement (with_draws w (sourced w t)) width h j = t j) ∧
       (∀ x y, 0 <= x < width → 0 <= y < h →
               (cell fa2 x y = true ↔ ∃ j, 0 <= j < n ∧ t j = (x, y)))).
Proof.
  intros HW HH Hnew n.
  pose proof (NewLife_returns_fits width h w w' g HW HH Hnew) as Hfit.
  pose proof (fits_cells width h Hfit) as Hm.
  split; [|split].
  - destruct (NewLife_run width h w HW HH Hfit)
      as (fa & Hrun & Hd & Hpop & Hcells).
    rewrite Hrun in Hnew. injection Hnew as <- <-.
    exists fa, (dead width h).
    cbn [Life.a Life.b Life.width Life.h heap draws drawn].
    split; [reflexivity|]. split; [reflexivity|].
    split; [lia|].
    split; [apply lookup_ge_None; lia|].
    split; [apply lookup_ge_None; lia|].
    split; [now rewrite list_lookup_middle|].
    split.
    { replace (heap w ++ [fa; dead width h])
        with ((heap w ++ [fa]) ++ [dead width h])
        by (now rewrite <- app_assoc).
      rewrite list_lookup_middle; [reflexivity|].
      rewrite length_app. cbn. lia. }
    split; [exact Hd|].
    split; [split; [now apply dead_wf | split; reflexivity]|].
    split; [reflexivity|]. split; [reflexivity|].
    split.
    { intros j Hj. unfold placement. cbn [fst snd].
      split; apply Z.mod_pos_bound; lia. }
    split; [exact Hcells|].
    split; [split; [unfold population; lia | exact Hpop]|].
    split; [apply population_dead | apply dead_cell].
  - intros d j. apply placement_own_draws.
  - intros t Ht.
    assert (Hpl : ∀ j, 0 <= j < n →
                  placement (with_draws w (sourced w t)) width h j = t j).
    { intros j Hj. destruct (Ht j Hj) as [Hx Hy].
      apply sourced_placement; (assumption || lia). }
    destruct (NewLife_run width h (with_draws w (sourced w t)) HW HH Hfit)
      as (fa2 & Hrun & _ & _ & Hcells).
    eexists _, _, fa2. split; [exact Hrun|].
    split; [cbn [Life.a heap with_draws]; now rewrite list_lookup_middle|].
    split; [exact Hpl|].
    intros x y Hx Hy. rewrite (Hcells x y Hx Hy). fold n.
    split; intros (j & Hj & Hp); exists j; (split; [exact Hj|]).
    + now rewrite <- Hpl.
    + now rewrite Hpl.
Qed.

Lemma NewLife_seeds_witness :
  0 < 4 ∧ NewLife 4 4 world0 = Some (game0, world0_seeded) ∧
  ∃ fa fb,
    heap world0_seeded !! Life.a game0 = Some fa ∧
    heap world0_seeded !! Life.b game0 = Some fb ∧
    drawn world0_seeded = (drawn world0 + 2 * Z.to_nat (4 * 4 / 4))%nat ∧
    0 <= population fa <= 4 * 4 / 4 ∧ population fb = 0.
Proof.
  assert (H4 : 0 < 4) by lia.
  assert (Hnew : NewLife 4 4 world0 = Some (game0, world0_seeded))
    by (vm_compute; reflexivity).
  split; [exact H4|]. split; [exact Hnew|].
  destruct (NewLife_seeds 4 4 world0 world0_seeded game0 H4 H4 Hnew)
    as ((fa & fb & _ & _ & _ & _ & _ & Ha & Hb & _ & _ & _ & Hdr & _ & _
         & Hpop & Hdead & _) & _).
  exists fa, fb.
  split; [exact Ha|]. split; [exact Hb|].
  split; [exact Hdr|]. split; [exact Hpop | exact Hdead].
Defined.

(** C8 as stated fails for dimensions beyond the memory: width 2^62 and
    height 4 are positive, the allocation of a row is refused and no
    game is returned; the product of the two, 2^64, is not even a
    machine integer, it wraps to 0. *)
Lemma NewLife_seeds_cex :
  0 < 2 ^ 62 ∧ 0 < 4 ∧
  NewLife (2 ^ 62) 4 world0 = None ∧
  Int.mul (2 ^ 62) 4 = 0.
Proof. repeat split. Qed.

(** ** The invariant *)

(** Overwriting one of the two fields by a field of the same dimensions
    keeps the state of the game. *)
Lemma Inv_store (g : Life.t) (w : World) (p : ptr) (f' : Field.t) :
  Inv w g → p = Life.a g ∨ p = Life.b g →
  has_dims f' (Life.width g) (Life.h g) →
  Inv (with_heap w (<[p := f']> (heap w))) g.
Proof.
  intros (Hne & fa & fb & Ha & Hb & Hda & Hdb) Hp Hd'.
  pose proof (lookup_lt_Some _ _ _ Ha) as Hla.
  pose proof (lookup_lt_Some _ _ _ Hb) as Hlb.
  split; [exact Hne|]. cbn [with_heap heap].
  destruct Hp as [-> | ->].
  - exists f', fb.
    split; [now apply list_lookup_insert_eq|].
    split; [now rewrite list_lookup_insert_ne by assumption|].
    split; assumption.
  - exists fa, f'.
    split; [now rewrite list_lookup_insert_ne by congruence|].
    split; [now apply list_lookup_insert_eq|].
    split; assumption.
Qed.

Lemma Inv_field (g : Life.t) (w : World) (p : ptr) (f : Field.t) :
  Inv w g → p = Life.a g ∨ p = Life.b g → heap w !! p = Some f →
  has_dims f (Life.width g) (Life.h g).
Proof.
  intros (Hne & fa & fb & Ha & Hb & Hda & Hdb) [-> | ->] Hf; congruence.
Qed.

(** C9: the invariant of a game.  A game that [NewLife] has built on
    positive dimensions has two distinct fields of the dimensions it
    was built with.  In such a state [Step] and [String] return and
    keep it, with the same dimensions; each of the two fields has
    exactly [h] rows of exactly [width] cells, so that every in-range
    coordinate pair has a stored boolean; and at in-range coordinates
    [Alive] and [Next] return a boolean and [Set] returns a field that,
    put back, keeps the state. *)
Theorem Inv_kept :
  (∀ width h w g w',
     0 < width → 0 < h → NewLife width h w = Some (g, w') →
     Inv w' g ∧ Life.width g = width ∧ Life.h g = h) ∧
  (∀ g w,
     Inv w g →
     (∃ w', Step g w = Some (swapped g, w') ∧ Inv w' (swapped g) ∧
            Life.width (swapped g) = Life.width g ∧
            Life.h (swapped g) = Life.h g) ∧
     (∃ out, String g w = Some (out, w)) ∧
     (∀ p f,
        p = Life.a g ∨ p = Life.b g → heap w !! p = Some f →
        Field.width f = Life.width g ∧ Field.h f = Life.h g ∧
        Z.of_nat (length (Field.s f)) = Life.h g ∧
        Forall (λ row, Z.of_nat (length row) = Life.width g) (Field.s f) ∧
        ∀ x y, 0 <= x < Life.width g → 0 <= y < Life.h g →
               is_Some (stored f x y) ∧
               is_Some (Alive f x y) ∧ is_Some (Next f x y) ∧
               ∀ v, ∃ f', Set_ f x y v = Some f' ∧
                          Field.width f' = Life.width g ∧
                          Field.h f' = Life.h g ∧
                          Inv (with_heap w (<[p := f']> (heap w))) g)).
Proof.
  split; [intros width h w g w'; apply Inv_NewLife|].
  intros g w HI. split; [|split].
  - destruct HI as (Hne & fa & fb & Ha & Hb & Hda & Hdb).
    assert (HI : Inv w g) by (split; [exact Hne|]; eauto 10).
    destruct (Step_run g w fa HI Ha) as (fb' & Hstep & Hdb' & _).
    destruct (Inv_swapped g w fa fb' HI Ha Hdb') as (HI' & _).
    eexists. split; [exact Hstep|]. split; [exact HI'|].
    split; reflexivity.
  - destruct HI as (Hne & fa & fb & Ha & Hb & Hda & Hdb).
    assert (HI : Inv w g) by (split; [exact Hne|]; eauto 10).
    exists (render fa). now apply String_spec.
  - intros p f Hp Hf.
    pose proof (Inv_field g w p f HI Hp Hf) as Hd.
    pose proof Hd as (Hwf & HW & HH).
    pose proof (wf_elim f Hwf) as (_ & _ & Hl & Hr & _).
    rewrite HW in Hr. rewrite HH in Hl.
    split; [exact HW|]. split; [exact HH|]. split; [exact Hl|].
    split; [exact Hr|].
    intros x y Hx Hy.
    assert (Hin : in_field f x y) by (unfold in_field; lia).
    split; [rewrite stored_in_field by assumption; eauto|].
    split; [rewrite Alive_in_field by assumption; eauto|].
    split; [rewrite Next_in_field by assumption; eauto|].
    intros v. exists (updated f x y v).
    split; [now apply Set_in_field|].
    split; [exact HW|]. split; [exact HH|].
    apply Inv_store; [exact HI | exact Hp |].
    now apply has_dims_updated.
Qed.

Lemma Inv_kept_witness :
  (∃ g w', NewLife 4 4 world0 = Some (g, w') ∧ Inv w' g) ∧
  (∃ w', Step game5 world5 = Some (swapped game5, w')
         ∧ Inv w' (swapped game5)).
Proof.
  destruct Inv_kept as [Hnew Hops]. split.
  - destruct (NewLife 4 4 world0) as [[g w']|] eqn:Hrun;
      [|vm_compute in Hrun; discriminate].
    exists g, w'. split; [reflexivity|].
    apply (Hnew 4 4 world0 g w'); [lia | lia | exact Hrun].
  - destruct (Hops game5 world5 Inv_game5) as ((w' & Hstep & HI & _) & _).
    exists w'. split; assumption.
Defined.

(** * Further properties of the program *)

(** ** Set: bounds, read back, composition *)

Lemma field_row (f : Field.t) (y : Z) :
  wf f → 0 <= y < Field.h f →
  ∃ row, Field.s f !! Z.to_nat y = Some row
         ∧ Z.of_nat (length row) = Field.width f.
Proof.
  intros Hf Hy. pose proof (wf_elim f Hf) as (_ & _ & Hl & Hr & _).
  destruct (lookup_lt_is_Some_2 (Field.s f) (Z.to_nat y)) as [row Hrow];
    [lia|].
  exists row. split; [exact Hrow|].
  rewrite Forall_forall in Hr. apply Hr.
  eapply list_elem_of_lookup_2; eauto.
Qed.

(** [Set] does not wrap: it writes exactly when the coordinates are in
    the field, and panics for every other pair. *)
Theorem Set_writes_in_field_only (f : Field.t) (x y : Z) (b : bool) :
  wf f →
  (in_field f x y → Set_ f x y b = Some (updated f x y b)) ∧
  (¬ in_field f x y → Set_ f x y b = None).
Proof.
  intros Hf. split; [now apply Set_in_field|].
  intros Hout. pose proof (wf_elim f Hf) as (_ & _ & Hl & _).
  unfold Set_, in_field in *.
  destruct (Z.ltb_spec y 0) as [Hy0|Hy0]; [now rewrite index_neg|].
  rewrite index_nonneg by lia.
  destruct (Z.ltb_spec y (Field.h f)) as [Hy1|Hy1].
  - destruct (field_row f y Hf ltac:(lia)) as (row & Hrow & Hlen).
    rewrite Hrow. cbn [mbind option_bind].
    destruct (Z.ltb_spec x 0) as [Hx0|Hx0]; [now rewrite index_neg|].
    rewrite index_nonneg by lia.
    rewrite (proj2 (lookup_ge_None row (Z.to_nat x))) by lia.
    reflexivity.
  - rewrite (proj2 (lookup_ge_None (Field.s f) (Z.to_nat y))) by lia.
    reflexivity.
Qed.

Lemma Set_writes_in_field_only_witness :
  wf strip2 ∧ Set_ strip2 1 0 true = Some (updated strip2 1 0 true)
  ∧ Set_ strip2 2 0 true = None ∧ Set_ strip2 (-1) 0 true = None.
Proof.
  assert (Hf : wf strip2) by reflexivity.
  destruct (Set_writes_in_field_only strip2 1 0 true Hf) as [Hin _].
  destruct (Set_writes_in_field_only strip2 2 0 true Hf) as [_ Hout].
  destruct (Set_writes_in_field_only strip2 (-1) 0 true Hf) as [_ Hneg].
  split; [exact Hf|]. split; [|split].
  - apply Hin. unfold in_field. cbn. lia.
  - apply Hout. unfold in_field. cbn. lia.
  - apply Hneg. unfold in_field. cbn. lia.
Defined.

(** What [Alive] reads after a write: within one turn of the torus, a
    read that wraps onto the written cell returns the written value and
    any other read returns what it returned before. *)
Theorem Alive_after_Set (f : Field.t) (x y : Z) (b : bool) (x' y' : Z) :
  wf f → in_field f x y →
  - Field.width f <= x' <= Int.max_int - Field.width f →
  - Field.h f <= y' <= Int.max_int - Field.h f →
  ∃ f', Set_ f x y b = Some f' ∧
        Alive f' x y = Some b ∧
        Alive f' x' y'
        = if (x' mod Field.width f =? x) && (y' mod Field.h f =? y)
          then Some b else Alive f x' y'.
Proof.
  intros Hf Hin Hx' Hy'. exists (updated f x y b).
  pose proof (updated_wf f x y b Hf) as Hf'.
  pose proof (wf_bounds f Hf) as [HW HH].
  split; [now apply Set_in_field|]. split.
  - rewrite Alive_in_field by assumption.
    rewrite cell_updated by assumption.
    now rewrite !Z.eqb_refl.
  - rewrite (Alive_one_wrap (updated f x y b)) by assumption.
    rewrite (Alive_one_wrap f) by assumption.
    cbn [updated Field.width Field.h].
    rewrite cell_updated;
      [| assumption | assumption
       | split; apply Z.mod_pos_bound; lia].
    now destruct ((x' mod Field.width f =? x) && (y' mod Field.h f =? y)).
Qed.

Lemma Alive_after_Set_witness :
  wf strip2 ∧ in_field strip2 1 0 ∧
  ∃ f', Set_ strip2 1 0 true = Some f' ∧ Alive f' (-1) 0 = Some true.
Proof.
  assert (Hf : wf strip2) by reflexivity.
  assert (Hin : in_field strip2 1 0) by (unfold in_field; cbn; lia).
  split; [exact Hf|]. split; [exact Hin|].
  destruct (Alive_after_Set strip2 1 0 true (-1) 0 Hf Hin)
    as (f' & Hset & _ & Hread).
  - cbn. vm_compute. split; discriminate.
  - cbn. vm_compute. split; discriminate.
  - exists f'. split; [exact Hset|]. rewrite Hread. reflexivity.
Defined.

Lemma field_eq (f1 f2 : Field.t) :
  wf f1 → wf f2 →
  Field.width f1 = Field.width f2 → Field.h f1 = Field.h f2 →
  (∀ x y, in_field f1 x y → cell f1 x y = cell f2 x y) →
  f1 = f2.
Proof.
  intros Hf1 Hf2 HW HH Hc.
  pose proof (same_cells_same_rows f1 f2 Hf1 Hf2 HW HH Hc) as Hs.
  destruct f1, f2. cbn in *. congruence.
Qed.

(** Two writes: the later one wins at the same cell, and writes at
    different cells can be made in either order. *)
Theorem Set_twice (f : Field.t) (x1 y1 x2 y2 : Z) (b1 b2 : bool) :
  wf f → in_field f x1 y1 → in_field f x2 y2 →
  ∃ f1 f2 f12 f21,
    Set_ f x1 y1 b1 = Some f1 ∧ Set_ f x2 y2 b2 = Some f2 ∧
    Set_ f1 x2 y2 b2 = Some f12 ∧ Set_ f2 x1 y1 b1 = Some f21 ∧
    ((x1, y1) = (x2, y2) → f12 = f2 ∧ f21 = f1) ∧
    ((x1, y1) ≠ (x2, y2) → f12 = f21).
Proof.
  intros Hf Hin1 Hin2.
  pose proof (updated_wf f x1 y1 b1 Hf) as Hf1.
  pose proof (updated_wf f x2 y2 b2 Hf) as Hf2.
  exists (updated f x1 y1 b1), (updated f x2 y2 b2),
         (updated (updated f x1 y1 b1) x2 y2 b2),
         (updated (updated f x2 y2 b2) x1 y1 b1).
  split; [now apply Set_in_field|]. split; [now apply Set_in_field|].
  split; [now apply Set_in_field|]. split; [now apply Set_in_field|].
  assert (Hcells : ∀ g u v c u' v' c' x y,
             wf g → in_field g u v → in_field g u' v' → in_field g x y →
             cell (updated (updated g u v c) u' v' c') x y
             = if (x =? u') && (y =? v') then c'
               else if (x =? u) && (y =? v) then c else cell g x y).
  { intros g u v c u' v' c' x y Hg Huv Huv' Hxy.
    rewrite cell_updated; [| now apply updated_wf | exact Huv' | exact Hxy].
    now rewrite cell_updated by assumption. }
  split.
  - intros Heq. injection Heq as -> ->. split.
    + apply field_eq; try (now apply updated_wf); try reflexivity.
      intros x y Hxy. rewrite Hcells by assumption.
      rewrite cell_updated by assumption.
      now destruct ((x =? x2) && (y =? y2)).
    + apply field_eq; try (now apply updated_wf); try reflexivity.
      intros x y Hxy. rewrite Hcells by assumption.
      rewrite cell_updated by assumption.
      now destruct ((x =? x2) && (y =? y2)).
  - intros Hne.
    apply field_eq; try (now apply updated_wf); try reflexivity.
    intros x y Hxy. rewrite !Hcells by assumption.
    destruct (Z.eqb_spec x x2), (Z.eqb_spec y y2),
             (Z.eqb_spec x x1), (Z.eqb_spec y y1);
      cbn [andb]; try reflexivity.
    exfalso. apply Hne. congruence.
Qed.

Lemma Set_twice_witness :
  wf strip2 ∧ in_field strip2 0 0 ∧ in_field strip2 1 0 ∧
  ∃ f1 f2 f12 f21,
    Set_ strip2 0 0 false = Some f1 ∧ Set_ strip2 1 0 true = Some f2 ∧
    Set_ f1 1 0 true = Some f12 ∧ Set_ f2 0 0 false = Some f21 ∧
    f12 = f21.
Proof.
  assert (Hf : wf strip2) by reflexivity.
  assert (H0 : in_field strip2 0 0) by (unfold in_field; cbn; lia).
  assert (H1 : in_field strip2 1 0) by (unfold in_field; cbn; lia).
  split; [exact Hf|]. split; [exact H0|]. split; [exact H1|].
  destruct (Set_twice strip2 0 0 1 0 false true Hf H0 H1)
    as (f1 & f2 & f12 & f21 & E1 & E2 & E12 & E21 & _ & Hne).
  exists f1, f2, f12, f21.
  split; [exact E1|]. split; [exact E2|]. split; [exact E12|].
  split; [exact E21|]. apply Hne. discriminate.
Defined.

(** ** Alive and Next away from the field *)

Lemma mod_shift (z n : Z) : 0 < n → (z + n) mod n = z mod n.
Proof.
  intros Hn. rewrite <- (Z.mul_1_l n) at 1. apply Z.mod_add. lia.
Qed.

(** [Alive] is periodic: one turn further along either axis, as long as
    that coordinate is still within reach, it reads the same cell. *)
Theorem Alive_periodic (f : Field.t) (x y : Z) :
  wf f →
  - Field.width f <= x → x + Field.width f <= Int.max_int - Field.width f →
  - Field.h f <= y → y + Field.h f <= Int.max_int - Field.h f →
  Alive f (x + Field.width f) y = Alive f x y ∧
  Alive f x (y + Field.h f) = Alive f x y ∧
  is_Some (Alive f x y).
Proof.
  intros Hf Hx0 Hx1 Hy0 Hy1. pose proof (wf_bounds f Hf) as [HW HH].
  rewrite !Alive_one_wrap by (assumption || lia).
  rewrite !mod_shift by lia. eauto.
Qed.

Lemma Alive_periodic_witness :
  wf strip2 ∧ Alive strip2 (-1 + Field.width strip2) 0 = Alive strip2 (-1) 0.
Proof.
  assert (Hf : wf strip2) by reflexivity. split; [exact Hf|].
  apply (Alive_periodic strip2 (-1) 0 Hf);
    cbn; vm_compute; discriminate.
Defined.

(** The eight reads of [Next] around a cell that lies off the field but
    within one turn of it. *)
Lemma Alive_neighbour_wrap (f : Field.t) (x y i j : Z) :
  wf f →
  - Field.width f < x < Int.max_int - Field.width f →
  - Field.h f < y < Int.max_int - Field.h f →
  -1 <= i <= 1 → -1 <= j <= 1 →
  Alive f (Int.add x i) (Int.add y j)
  = Some (cell f ((x mod Field.width f + i) mod Field.width f)
                 ((y mod Field.h f + j) mod Field.h f)).
Proof.
  intros Hf Hx Hy Hi Hj. pose proof (wf_bounds f Hf) as [HW HH].
  pose proof maxAlloc_bound as Hm. unfold Int.add.
  rewrite !wrap_small
    by (unfold Int.in_range, Int.min_int, Int.max_int in *; lia).
  rewrite Alive_one_wrap by (assumption || lia).
  now rewrite !Zplus_mod_idemp_l.
Qed.

(** [Next] is toroidal as well: at coordinates off the field, strictly
    within one turn of it, it returns what it returns at the cell they
    wrap onto. *)
Theorem Next_wraps (f : Field.t) (x y : Z) :
  wf f →
  - Field.width f < x < Int.max_int - Field.width f →
  - Field.h f < y < Int.max_int - Field.h f →
  Next f x y = Next f (x mod Field.width f) (y mod Field.h f) ∧
  Next f x y
  = Some (next_cell f (x mod Field.width f) (y mod Field.h f)).
Proof.
  intros Hf Hx Hy. pose proof (wf_bounds f Hf) as [HW HH].
  assert (Hin : in_field f (x mod Field.width f) (y mod Field.h f))
    by (split; apply Z.mod_pos_bound; lia).
  assert (HN : Next f x y
               = Some (next_cell f (x mod Field.width f) (y mod Field.h f))).
  { unfold Next.
    assert (Hcount : Next_count f x y
                     = Some (neighbours f (x mod Field.width f)
                                          (y mod Field.h f))).
    { unfold Next_count, forZ, Next_body.
      cbn [Z.eqb negb orb Pos.eqb].
      rewrite !(Alive_neighbour_wrap f x y) by (assumption || lia).
      cbn [mbind option_bind].
      unfold neighbours, offsets. cbn [map foldr fst snd].
      split_cells f; reflexivity. }
    rewrite Hcount. cbn [mbind option_bind].
    rewrite Alive_one_wrap by (assumption || lia).
    unfold next_cell, rule.
    destruct (neighbours f (x mod Field.width f) (y mod Field.h f) =? 3),
             (neighbours f (x mod Field.width f) (y mod Field.h f) =? 2);
      reflexivity. }
  split; [|exact HN].
  rewrite HN. symmetry. now apply Next_in_field.
Qed.

Lemma Next_wraps_witness :
  wf blinker5 ∧ Next blinker5 (-3) 6 = Next blinker5 2 1.
Proof.
  assert (Hf : wf blinker5) by reflexivity. split; [exact Hf|].
  apply (Next_wraps blinker5 (-3) 6 Hf);
    cbn; vm_compute; split; reflexivity || discriminate.
Defined.

(** ** Uniform fields *)

Lemma neighbours_uniform (f : Field.t) (c : bool) (x y : Z) :
  wf f → shows f (λ _ _, c) →
  neighbours f x y = if c then 8 else 0.
Proof.
  intros Hf Hp. pose proof (wf_bounds f Hf) as [HW HH].
  assert (Hc : ∀ i j, cell f ((x + i) mod Field.width f)
                             ((y + j) mod Field.h f) = c).
  { intros i j. apply Hp. split; apply Z.mod_pos_bound; lia. }
  unfold neighbours, offsets. cbn [map foldr fst snd].
  rewrite !Hc. now destruct c.
Qed.

Lemma uniform_next (f : Field.t) (c : bool) :
  wf f → shows f (λ _ _, c) →
  ∀ x y, in_field f x y → next_cell f x y = false.
Proof.
  intros Hf Hp x y Hin. unfold next_cell.
  rewrite (neighbours_uniform f c) by assumption.
  rewrite (Hp x y Hin). now destruct c.
Qed.

Lemma all_dead_is_dead (f : Field.t) :
  wf f → shows f (λ _ _, false) → f = dead (Field.width f) (Field.h f).
Proof.
  intros Hf Hp. pose proof (wf_elim f Hf) as (HW & HH & _ & _ & Hm).
  apply field_eq; try reflexivity; try assumption.
  - now apply dead_wf.
  - intros x y Hin. rewrite dead_cell. now apply Hp.
Qed.

Lemma Steps_dead (n : nat) (g : Life.t) (w : World) (fa : Field.t) :
  Inv w g → heap w !! Life.a g = Some fa → shows fa (λ _ _, false) →
  ∃ g' w',
    Steps n g w = Some (g', w') ∧ Inv w' g' ∧
    Life.width g' = Life.width g ∧ Life.h g' = Life.h g ∧
    heap w' !! Life.a g' = Some (dead (Life.width g) (Life.h g)).
Proof.
  revert g w fa. induction n as [|n IH]; intros g w fa HI Ha Hp.
  - exists g, w. destruct (Inv_current g w fa HI Ha) as (Hfa & HW & HH).
    split; [reflexivity|]. split; [exact HI|].
    split; [reflexivity|]. split; [reflexivity|].
    rewrite Ha. f_equal. rewrite <- HW, <- HH. now apply all_dead_is_dead.
  - destruct (Inv_current g w fa HI Ha) as (Hfa & HW & HH).
    destruct (Step_pattern g w fa (λ _ _, false) HI Ha)
      as (w1 & f1 & Hstep & HI1 & Ha1 & Hd1 & Hp1).
    { now apply (uniform_next fa false). }
    destruct (IH (swapped g) w1 f1 HI1 Ha1 Hp1)
      as (g' & w' & Hrun & HI' & HW' & HH' & Ha').
    exists g', w'.
    split; [cbn [Steps]; now rewrite (bind_Some _ _ _ _ _ Hstep)|].
    split; [exact HI'|]. split; [exact HW'|]. split; [exact HH'|].
    exact Ha'.
Qed.

(** Whatever the dimensions, a game whose current field is uniform,
    every cell dead or every cell alive, has every cell of its current
    field dead after one step, and after any further number of steps. *)
Theorem uniform_field_dies (n : nat) (g : Life.t) (w : World)
        (fa : Field.t) (c : bool) :
  Inv w g → heap w !! Life.a g = Some fa → shows fa (λ _ _, c) →
  ∃ g' w',
    Steps (S n) g w = Some (g', w') ∧ Inv w' g' ∧
    Life.width g' = Life.width g ∧ Life.h g' = Life.h g ∧
    heap w' !! Life.a g' = Some (dead (Life.width g) (Life.h g)).
Proof.
  intros HI Ha Hp.
  destruct (Inv_current g w fa HI Ha) as (Hfa & HW & HH).
  destruct (Step_pattern g w fa (λ _ _, false) HI Ha)
    as (w1 & f1 & Hstep & HI1 & Ha1 & Hd1 & Hp1).
  { now apply (uniform_next fa c). }
  destruct (Steps_dead n (swapped g) w1 f1 HI1 Ha1 Hp1)
    as (g' & w' & Hrun & HI' & HW' & HH' & Ha').
  exists g', w'.
  split; [cbn [Steps]; now rewrite (bind_Some _ _ _ _ _ Hstep)|].
  split; [exact HI'|]. split; [exact HW'|]. split; [exact HH'|].
  exact Ha'.
Qed.

Lemma Inv_game1 : Inv world1 game1.
Proof.
  split; [discriminate|]. exists one1, one1. repeat split; reflexivity.
Qed.

Lemma uniform_field_dies_witness :
  Inv world1 game1 ∧ heap world1 !! Life.a game1 = Some one1 ∧
  shows one1 (λ _ _, true) ∧
  ∃ g' w', Steps 1 game1 world1 = Some (g', w')
           ∧ heap w' !! Life.a g' = Some (dead 1 1).
Proof.
  assert (Hp : shows one1 (λ _ _, true)).
  { intros x y [Hx Hy]. cbn in Hx, Hy.
    assert (x = 0) as -> by lia. assert (y = 0) as -> by lia.
    reflexivity. }
  split; [exact Inv_game1|]. split; [reflexivity|]. split; [exact Hp|].
  destruct (uniform_field_dies 0 game1 world1 one1 true
              Inv_game1 eq_refl Hp)
    as (g' & w' & Hrun & _ & _ & _ & Ha').
  exists g', w'. split; [exact Hrun | exact Ha'].
Defined.

(** ** Step works in place *)

(** Any number of steps returns; it allocates nothing, draws no random
    number and touches no field but the two of the game; the two
    addresses are back in their roles after an even number of steps and
    exchanged after an odd number. *)
Theorem Steps_in_place (n : nat) (g : Life.t) (w : World) :
  Inv w g →
  ∃ w',
    Steps n g w = Some (if Nat.even n then g else swapped g, w') ∧
    Inv w' (if Nat.even n then g else swapped g) ∧
    length (heap w') = length (heap w) ∧
    draws w' = draws w ∧ drawn w' = drawn w ∧
    (∀ p, p ≠ Life.a g → p ≠ Life.b g → heap w' !! p = heap w !! p).
Proof.
  revert g w. induction n as [|n IH]; intros g w HI.
  - exists w. cbn. repeat split; trivial; apply HI.
  - pose proof HI as (Hne & fa & fb & Ha & Hb & Hda & Hdb).
    destruct (Step_run g w fa HI Ha) as (fb' & Hstep & Hdb' & _).
    destruct (Inv_swapped g w fa fb' HI Ha Hdb') as (HI1 & _).
    destruct (IH (swapped g) _ HI1)
      as (w' & Hrun & HI' & Hlen & Hdr & Hdn & Hother).
    exists w'. rewrite Nat.even_succ, <- Nat.negb_even.
    assert (Hg : (if negb (Nat.even n) then g else swapped g)
                 = (if Nat.even n then swapped g else swapped (swapped g)))
      by (rewrite swapped_swapped; now destruct (Nat.even n)).
    rewrite Hg.
    split; [cbn [Steps]; now rewrite (bind_Some _ _ _ _ _ Hstep)|].
    split; [exact HI'|].
    split; [rewrite Hlen; cbn [with_heap heap]; apply length_insert|].
    split; [exact Hdr|]. split; [exact Hdn|].
    intros p Hpa Hpb. rewrite Hother by (cbn; congruence).
    cbn [with_heap heap]. now rewrite list_lookup_insert_ne by congruence.
Qed.

Lemma Steps_in_place_witness :
  Inv world5 game5 ∧
  ∃ w', Steps 2 game5 world5 = Some (game5, w')
        ∧ length (heap w') = length (heap world5).
Proof.
  split; [exact Inv_game5|].
  destruct (Steps_in_place 2 game5 world5 Inv_game5)
    as (w' & Hrun & _ & Hlen & _).
  exists w'. split; [exact Hrun | exact Hlen].
Defined.

(** ** The text determines the field *)

Lemma glyph_inj (b1 b2 : bool) : glyph b1 = glyph b2 → b1 = b2.
Proof. destruct b1, b2; (reflexivity || discriminate). Qed.

Lemma glyph_not_newline (b : bool) : glyph b ≠ newline.
Proof. destruct b; discriminate. Qed.

(** Two well-formed fields with the same text have the same dimensions
    and the same cells. *)
Lemma render_injective (f1 f2 : Field.t) :
  wf f1 → wf f2 → render f1 = render f2 → f1 = f2.
Proof.
  intros Hf1 Hf2 Heq.
  pose proof (wf_bounds f1 Hf1) as [HW1 HH1].
  pose proof (wf_bounds f2 Hf2) as [HW2 HH2].
  destruct (render_layout f1 Hf1) as [Hlen1 Hpos1].
  destruct (render_layout f2 Hf2) as [Hlen2 Hpos2].
  assert (Hfirst : ∀ fa fb, wf fa → wf fb → render fa = render fb →
                            ¬ Field.width fa < Field.width fb).
  { intros fa fb Hfa Hfb Hr Hlt.
    pose proof (wf_bounds fa Hfa) as [HWa HHa].
    pose proof (wf_bounds fb Hfb) as [HWb HHb].
    destruct (render_layout fa Hfa) as [_ Hpa].
    destruct (render_layout fb Hfb) as [_ Hpb].
    destruct (Hpa 0 0) as [_ Hnl]; [unfold in_field; lia|].
    destruct (Hpb (Field.width fa) 0) as [Hgl _]; [unfold in_field; lia|].
    rewrite Z.mul_0_l, Z.add_0_l in Hnl, Hgl.
    rewrite Hr, Hgl in Hnl. injection Hnl as Hnl.
    now apply glyph_not_newline in Hnl. }
  assert (HW : Field.width f1 = Field.width f2).
  { pose proof (Hfirst f1 f2 Hf1 Hf2 Heq).
    pose proof (Hfirst f2 f1 Hf2 Hf1 (eq_sym Heq)). lia. }
  assert (HH : Field.h f1 = Field.h f2).
  { rewrite Heq, Hlen2, HW in Hlen1. nia. }
  apply field_eq; try assumption.
  intros x y Hin.
  destruct (Hpos1 x y Hin) as [H1 _].
  destruct (Hpos2 x y) as [H2 _]; [unfold in_field in *; lia|].
  rewrite Heq, HW, H2 in H1. injection H1 as H1.
  symmetry. now apply glyph_inj.
Qed.

(** [String] loses nothing: two games whose texts are the same bytes
    have the same current field, dimensions and cells alike, whatever
    their scratch fields and the rest of their worlds. *)
Theorem String_injective (g1 g2 : Life.t) (w1 w2 : World)
        (f1 f2 : Field.t) :
  Inv w1 g1 → heap w1 !! Life.a g1 = Some f1 →
  Inv w2 g2 → heap w2 !! Life.a g2 = Some f2 →
  fst <$> String g1 w1 = fst <$> String g2 w2 →
  f1 = f2 ∧ Life.width g1 = Life.width g2 ∧ Life.h g1 = Life.h g2.
Proof.
  intros HI1 Ha1 HI2 Ha2 Heq.
  destruct (Inv_current g1 w1 f1 HI1 Ha1) as (Hf1 & HW1 & HH1).
  destruct (Inv_current g2 w2 f2 HI2 Ha2) as (Hf2 & HW2 & HH2).
  rewrite (String_spec g1 w1 f1 HI1 Ha1) in Heq.
  rewrite (String_spec g2 w2 f2 HI2 Ha2) in Heq.
  cbn in Heq. injection Heq as Heq.
  pose proof (render_injective f1 f2 Hf1 Hf2 Heq) as E.
  split; [exact E|]. subst f2. split; congruence.
Qed.

Lemma String_injective_witness :
  Inv world5 game5 ∧ Inv world5_right game5_right ∧
  fst <$> String game5 world5 ≠ fst <$> String game5_right world5_right.
Proof.
  split; [exact Inv_game5|].
  assert (HI : Inv world5_right game5_right).
  { split; [discriminate|]. exists blinker5_right, stale5.
    repeat split; reflexivity. }
  split; [exact HI|]. intros Heq.
  destruct (String_injective game5 game5_right world5 world5_right
              blinker5 blinker5_right Inv_game5 eq_refl HI eq_refl Heq)
    as (E & _).
  discriminate E.
Defined.

(** ** A step, then the text *)

(** The frame after a step: [Step] followed by [String] returns, and
    the text has a ['*'] exactly at the cells that [Next] makes alive
    on the field that was current before the step, a [' '] at the
    others, and a line feed after each row. *)
Theorem Step_then_String (g : Life.t) (w : World) (fa : Field.t) :
  Inv w g → heap w !! Life.a g = Some fa →
  ∃ out w',
    (do g' <- Step g; String g') w = Some (out, w') ∧
    Z.of_nat (length out) = Life.h g * (Life.width g + 1) ∧
    ∀ x y, 0 <= x < Life.width g → 0 <= y < Life.h g →
           Next fa x y = Some (next_cell fa x y) ∧
           out !! Z.to_nat (y * (Life.width g + 1) + x)
             = Some (glyph (next_cell fa x y)) ∧
           out !! Z.to_nat (y * (Life.width g + 1) + Life.width g)
             = Some newline.
Proof.
  intros HI Ha.
  destruct (Inv_current g w fa HI Ha) as (Hfa & HWa & HHa).
  destruct (Step_pattern g w fa (next_cell fa) HI Ha)
    as (w1 & f1 & Hstep & HI1 & Ha1 & (Hf1 & HW1 & HH1) & Hp1);
    [reflexivity|].
  destruct (render_layout f1 Hf1) as [Hlen Hpos].
  exists (render f1), w1.
  split; [rewrite (bind_Some _ _ _ _ _ Hstep); now apply String_spec|].
  rewrite HW1, HH1 in *. split; [exact Hlen|].
  intros x y Hx Hy.
  assert (Hin1 : in_field f1 x y) by (unfold in_field; lia).
  assert (Hina : in_field fa x y) by (unfold in_field; lia).
  destruct (Hpos x y Hin1) as [Hg Hn].
  split; [now apply Next_in_field|]. split; [|exact Hn].
  now rewrite Hg, (Hp1 x y Hin1).
Qed.

Lemma Step_then_String_witness :
  Inv world5 game5 ∧ heap world5 !! Life.a game5 = Some blinker5 ∧
  ∃ out w',
    (do g' <- Step game5; String g') world5 = Some (out, w') ∧
    Z.of_nat (length out) = 5 * (5 + 1).
Proof.
  split; [exact Inv_game5|]. split; [reflexivity|].
  destruct (Step_then_String game5 world5 blinker5 Inv_game5 eq_refl)
    as (out & w' & Hrun & Hlen & _).
  exists out, w'. split; [exact Hrun | exact Hlen].
Defined.

(** ** NewLife: how many cells are born *)

Lemma count_true_lookup (l : list bool) (i : nat) :
  l !! i = Some true → (1 <= count_true l)%nat.
Proof.
  revert i. induction l as [|c l IH]; intros i Hi; [discriminate|].
  destruct i as [|i]; cbn in *.
  - injection Hi as ->. lia.
  - specialize (IH i Hi). lia.
Qed.

Lemma population_live_cell (f : Field.t) (x y : Z) :
  stored f x y = Some true → 1 <= population f.
Proof.
  unfold stored, population.
  destruct (Field.s f !! Z.to_nat y) as [row|] eqn:Hrow; [|discriminate].
  cbn [mbind option_bind]. intros Hc.
  apply count_true_lookup in Hc. revert Hrow.
  generalize (Z.to_nat y) as i. generalize (Field.s f) as rows.
  induction rows as [|r rows IH]; intros i Hi; [discriminate|].
  destruct i as [|i]; cbn in *.
  - injection Hi as ->. lia.
  - specialize (IH i Hi). lia.
Qed.

Lemma fits_small (width h : Z) :
  0 < width → 0 < h → width * h < 4 → fits width h = true.
Proof.
  intros HW HH Hs. unfold fits, sizeof_slice.
  assert (h < 4) by nia.
  apply andb_true_iff. split; apply Z.leb_le.
  - transitivity 72; [lia | vm_compute; discriminate].
  - transitivity 4; [lia | vm_compute; discriminate].
Qed.

(** A game of fewer than four cells is born dead: [NewLife] makes no
    placement at all, draws no random number, and both fields are
    entirely dead. *)
Theorem NewLife_too_small (width h : Z) (w : World) :
  0 < width → 0 < h → width * h < 4 →
  NewLife width h w
  = Some (Life.mk (length (heap w)) (S (length (heap w))) width h,
          with_heap w (heap w ++ [dead width h; dead width h])).
Proof.
  intros HW HH Hs. pose proof (fits_small width h HW HH Hs) as Hfit.
  destruct (NewLife_run width h w HW HH Hfit)
    as (fa & Hrun & (Hfa & HWa & HHa) & _ & Hcells).
  assert (Hq : width * h / 4 = 0) by (apply Z.div_small; nia).
  rewrite Hq in *.
  assert (Hdead : fa = dead width h).
  { rewrite <- HWa, <- HHa. apply all_dead_is_dead; [exact Hfa|].
    intros x y [Hx Hy].
    destruct (cell fa x y) eqn:Hc; [|reflexivity].
    apply Hcells in Hc; [|lia|lia]. destruct Hc as (j & Hj & _). lia. }
  rewrite Hrun, Hdead. unfold with_heap. do 3 f_equal. cbn. lia.
Qed.

Lemma NewLife_too_small_witness :
  0 < 3 ∧ 0 < 1 ∧ 3 * 1 < 4 ∧
  NewLife 3 1 world0
  = Some (Life.mk 0%nat 1%nat 3 1,
          with_heap world0 [dead 3 1; dead 3 1]).
Proof.
  assert (H3 : 0 < 3) by lia. assert (H1 : 0 < 1) by lia.
  assert (Hs : 3 * 1 < 4) by lia.
  split; [exact H3|]. split; [exact H1|]. split; [exact Hs|].
  apply (NewLife_too_small 3 1 world0 H3 H1 Hs).
Defined.

(** A game of at least four cells is never born empty: the cell of the
    first placement is alive, so the current field has between 1 and
    floor(width*h/4) live cells. *)
Theorem NewLife_not_empty (width h : Z) (w : World) :
  0 < width → 0 < h → fits width h = true → 4 <= width * h →
  ∃ g w' fa,
    NewLife width h w = Some (g, w') ∧
    heap w' !! Life.a g = Some fa ∧
    cell fa (fst (placement w width h 0)) (snd (placement w width h 0))
      = true ∧
    1 <= population fa <= width * h / 4.
Proof.
  intros HW HH Hfit Hbig.
  destruct (NewLife_run width h w HW HH Hfit)
    as (fa & Hrun & (Hfa & HWa & HHa) & Hpop & Hcells).
  assert (Hn : 1 <= width * h / 4)
    by (apply Z.div_le_lower_bound; lia).
  set (p := placement w width h 0).
  assert (Hx : 0 <= fst p < width)
    by (unfold p, placement; cbn [fst]; apply Z.mod_pos_bound; lia).
  assert (Hy : 0 <= snd p < h)
    by (unfold p, placement; cbn [snd]; apply Z.mod_pos_bound; lia).
  assert (Hlive : cell fa (fst p) (snd p) = true).
  { apply Hcells; [exact Hx | exact Hy |]. exists 0. split; [lia|].
    fold p. now destruct p. }
  eexists _, _, fa. split; [exact Hrun|].
  split; [cbn [Life.a heap]; now rewrite list_lookup_middle|].
  split; [exact Hlive|]. split; [|exact Hpop].
  apply (population_live_cell fa (fst p) (snd p)).
  rewrite stored_in_field by (assumption || (unfold in_field; lia)).
  now rewrite Hlive.
Qed.

Lemma NewLife_not_empty_witness :
  0 < 4 ∧ fits 4 4 = true ∧ 4 <= 4 * 4 ∧
  ∃ g w' fa,
    NewLife 4 4 world0 = Some (g, w') ∧
    heap w' !! Life.a g = Some fa ∧
    1 <= population fa <= 4 * 4 / 4.
Proof.
  assert (H4 : 0 < 4) by lia.
  assert (Hfit : fits 4 4 = true) by reflexivity.
  assert (Hbig : 4 <= 4 * 4) by lia.
  split; [exact H4|]. split; [exact Hfit|]. split; [exact Hbig|].
  destruct (NewLife_not_empty 4 4 world0 H4 H4 Hfit Hbig)
    as (g & w' & fa & Hrun & Ha & _ & Hpop).
  exists g, w', fa. split; [exact Hrun|]. split; [exact Ha | exact Hpop].
Defined.

(** ** Dimensions that are not positive *)

Lemma foldM_idle {St : Type} (body : Z → St → M St) (n : Z)
      (acc : St) (w : World) :
  (∀ i a w', 0 <= i < n → body i a w' = Some (a, w')) →
  foldM (seqZ 0 n) body acc w = Some (acc, w).
Proof.
  intros Hbody. destruct (Z.le_gt_cases n 0) as [Hn|Hn].
  - now rewrite seqZ_nil by lia.
  - destruct (foldM_seqZ (λ _ a w', a = acc ∧ w' = w) body n acc w)
      as (a & w' & Hrun & -> & ->); [lia | now split | | exact Hrun].
    intros i a w' Hi [-> ->]. exists acc, w.
    split; [now apply Hbody | now split].
Qed.

(** A negative height, or a negative width with a positive height,
    makes [NewLife] panic in [make], before anything is built. *)
Theorem NewLife_negative (width h : Z) (w : World) :
  h < 0 ∨ (0 < h ∧ width < 0) → NewLife width h w = None.
Proof.
  intros Hneg. unfold NewLife. unfold bind at 1.
  assert (Hnew : NewField width h w = None); [|now rewrite Hnew].
  unfold NewField, bind, lift, make at 1.
  destruct Hneg as [Hh | [Hh Hw]].
  - destruct (Z.leb_spec 0 h); [lia | reflexivity].
  - destruct ((0 <=? h) && (h * sizeof_slice <=? maxAlloc));
      [|reflexivity].
    rewrite length_replicate, seqZ_cons by lia. cbn [forZ].
    unfold make. destruct (Z.leb_spec 0 width); [lia | reflexivity].
Qed.

Lemma NewLife_negative_witness :
  NewLife 40 (-1) world0 = None ∧ NewLife (-1) 15 world0 = None.
Proof.
  split.
  - apply (NewLife_negative 40 (-1) world0). left. lia.
  - apply (NewLife_negative (-1) 15 world0). right. lia.
Defined.

Lemma NewField_empty (width h : Z) (w : World) :
  h = 0 ∨ (width = 0 ∧ 0 <= h ∧ h * sizeof_slice <= maxAlloc) →
  NewField width h w
  = Some (length (heap w), with_heap w (heap w ++ [dead width h])).
Proof.
  intros [-> | (-> & Hh & Hs)].
  - reflexivity.
  - unfold NewField, bind, lift. rewrite make_ok by assumption.
    rewrite NewField_rows by ((split; [lia | vm_compute; discriminate]) || lia).
    unfold alloc. fold (dead 0 h). rewrite bytes_dead by lia.
    reflexivity.
Qed.

(** With a width or a height that is not positive [Step] visits no
    cell: it only exchanges the two addresses, whatever the world. *)
Lemma Step_no_cell (g : Life.t) (w : World) :
  Life.width g <= 0 ∨ Life.h g <= 0 → Step g w = Some (swapped g, w).
Proof.
  intros Hz. unfold Step.
  erewrite bind_Some; [reflexivity|].
  apply foldM_idle. intros y [] w' Hy.
  rewrite seqZ_nil by lia. reflexivity.
Qed.

Lemma String_no_cell (g : Life.t) (w : World) :
  Life.width g <= 0 ∨ Life.h g <= 0 →
  String g w = Some (replicate (Z.to_nat (Life.h g)) newline, w).
Proof.
  intros Hz. unfold String.
  destruct (Z.le_gt_cases (Life.h g) 0) as [Hh|Hh].
  - rewrite seqZ_nil by lia.
    now replace (Z.to_nat (Life.h g)) with 0%nat by lia.
  - destruct (foldM_seqZ
                (λ i buf w', w' = w ∧ buf = replicate (Z.to_nat i) newline)
                (String_row g) (Life.h g) [] w)
      as (buf & w' & Hrun & -> & ->); [lia | now split | | exact Hrun].
    intros i buf w' Hi [-> ->]. eexists _, w. split.
    + unfold String_row. rewrite seqZ_nil by lia. reflexivity.
    + split; [reflexivity|].
      replace (Z.to_nat (i + 1)) with (S (Z.to_nat i)) by lia.
      now rewrite replicate_S_end.
Qed.

(** The empty game.  With a zero width or a zero height [NewLife]
    returns, having drawn nothing, a game on two fields without cells.
    On it [Step] only exchanges the addresses and [String] is [h] line
    feeds, but every read panics: [Alive] divides by the zero
    dimension, and so does [Next]. *)
Theorem empty_game (width h : Z) (w : World) :
  h = 0 ∨ (width = 0 ∧ 0 <= h ∧ h * sizeof_slice <= maxAlloc) →
  let g := Life.mk (length (heap w)) (S (length (heap w))) width h in
  let w' := with_heap w (heap w ++ [dead width h; dead width h]) in
  NewLife width h w = Some (g, w') ∧
  Step g w' = Some (swapped g, w') ∧
  String g w' = Some (replicate (Z.to_nat h) newline, w') ∧
  (∀ x y, Alive (dead width h) x y = None
          ∧ Next (dead width h) x y = None).
Proof.
  intros Hz g w'.
  assert (Hprod : width * h = 0) by (destruct Hz as [-> | (-> & _)]; lia).
  split; [|split; [|split]].
  - unfold NewLife.
    erewrite bind_Some by (now apply NewField_empty).
    erewrite bind_Some
      by (unfold lift, Int.quo, Int.mul; rewrite Hprod; reflexivity).
    erewrite bind_Some by (cbn [Z.quot]; reflexivity).
    erewrite bind_Some by (now apply NewField_empty).
    unfold ret, g, w', with_heap. cbn [heap draws drawn].
    now rewrite length_app, <- app_assoc, Nat.add_1_r.
  - apply Step_no_cell. cbn. destruct Hz as [-> | (-> & _)]; lia.
  - apply (String_no_cell g w'). cbn. destruct Hz as [-> | (-> & _)]; lia.
  - intros x y.
    assert (HA : ∀ u v, Alive (dead width h) u v = None).
    { intros u v. unfold Alive, Int.rem. cbn [dead Field.width Field.h].
      destruct (Z.eqb_spec width 0) as [_|Hw]; [reflexivity|].
      cbn [mbind option_bind].
      destruct (Z.eqb_spec h 0) as [_|Hh]; [reflexivity|].
      destruct Hz as [-> | (-> & _)]; lia. }
    split; [apply HA|].
    unfold Next, Next_count, forZ, Next_body.
    cbn [Z.eqb negb orb Pos.eqb]. now rewrite !HA.
Qed.

Lemma empty_game_witness :
  NewLife 0 3 world0
  = Some (Life.mk 0%nat 1%nat 0 3, with_heap world0 [dead 0 3; dead 0 3])
  ∧ String (Life.mk 0%nat 1%nat 0 3)
           (with_heap world0 [dead 0 3; dead 0 3])
    = Some ([newline; newline; newline],
            with_heap world0 [dead 0 3; dead 0 3]).
Proof.
  assert (Hz : 3 = 0 ∨ (0 = 0 ∧ 0 <= 3 ∧ 3 * sizeof_slice <= maxAlloc))
    by (right; repeat split; vm_compute; discriminate).
  destruct (empty_game 0 3 world0 Hz) as (Hnew & _ & Hstr & _).
  split; [exact Hnew | exact Hstr].
Defined.

(** ** main *)






(** ** The rule does not depend on the place *)

Lemma shift_offset (x d i n : Z) :
  0 < n → ((x + d) mod n + i) mod n = ((x + i) mod n + d) mod n.
Proof.
  intros Hn. rewrite !Zplus_mod_idemp_l. f_equal. lia.
Qed.

Lemma next_cell_shifted (dx dy : Z) (f1 f2 : Field.t) (x y : Z) :
  wf f1 → wf f2 → shifted dx dy f1 f2 → in_field f1 x y →
  next_cell f2 ((x + dx) mod Field.width f1) ((y + dy) mod Field.h f1)
  = next_cell f1 x y.
Proof.
  intros Hf1 Hf2 (HW & HH & Hs) Hin.
  pose proof (wf_bounds f1 Hf1) as [HW1 HH1].
  assert (Hterm : ∀ i j,
            cell f2 (((x + dx) mod Field.width f1 + i) mod Field.width f1)
                    (((y + dy) mod Field.h f1 + j) mod Field.h f1)
            = cell f1 ((x + i) mod Field.width f1)
                      ((y + j) mod Field.h f1)).
  { intros i j.
    rewrite (shift_offset x dx i (Field.width f1)) by lia.
    rewrite (shift_offset y dy j (Field.h f1)) by lia.
    apply Hs. split; apply Z.mod_pos_bound; lia. }
  unfold next_cell. f_equal; [|now apply Hs].
  unfold neighbours, offsets. rewrite HW, HH.
  cbn [map foldr fst snd]. now rewrite !Hterm.
Qed.

(** [Step] commutes with the translations of the torus: when the
    current field of one game is the current field of another moved by
    [dx] columns and [dy] rows, the same holds after a step of each,
    and [Next] returns the same at a cell and at the cell it is moved
    to. *)
Theorem Step_shifted (dx dy : Z) (g1 g2 : Life.t) (w1 w2 : World)
        (f1 f2 : Field.t) :
  Inv w1 g1 → heap w1 !! Life.a g1 = Some f1 →
  Inv w2 g2 → heap w2 !! Life.a g2 = Some f2 →
  shifted dx dy f1 f2 →
  (∀ x y, in_field f1 x y →
          Next f2 ((x + dx) mod Field.width f1) ((y + dy) mod Field.h f1)
          = Next f1 x y) ∧
  ∃ w1' w2' f1' f2',
    Step g1 w1 = Some (swapped g1, w1') ∧
    Step g2 w2 = Some (swapped g2, w2') ∧
    heap w1' !! Life.a (swapped g1) = Some f1' ∧
    heap w2' !! Life.a (swapped g2) = Some f2' ∧
    shifted dx dy f1' f2'.
Proof.
  intros HI1 Ha1 HI2 Ha2 Hsh.
  destruct (Inv_current g1 w1 f1 HI1 Ha1) as (Hf1 & HW1 & HH1).
  destruct (Inv_current g2 w2 f2 HI2 Ha2) as (Hf2 & HW2 & HH2).
  pose proof (wf_bounds f1 Hf1) as [HWb HHb].
  pose proof Hsh as (HW & HH & _).
  split.
  - intros x y Hin.
    rewrite (Next_in_field f1 x y Hf1 Hin).
    rewrite Next_in_field;
      [| exact Hf2
       | unfold in_field; rewrite HW, HH; split; apply Z.mod_pos_bound; lia].
    f_equal. now apply (next_cell_shifted dx dy f1 f2).
  - destruct (Step_pattern g1 w1 f1 (next_cell f1) HI1 Ha1)
      as (w1' & f1' & Hs1 & _ & Hb1 & (Hf1' & HW1' & HH1') & Hp1);
      [reflexivity|].
    destruct (Step_pattern g2 w2 f2 (next_cell f2) HI2 Ha2)
      as (w2' & f2' & Hs2 & _ & Hb2 & (Hf2' & HW2' & HH2') & Hp2);
      [reflexivity|].
    exists w1', w2', f1', f2'.
    split; [exact Hs1|]. split; [exact Hs2|].
    split; [exact Hb1|]. split; [exact Hb2|].
    split; [congruence|]. split; [congruence|].
    intros x y Hin.
    assert (Hin1 : in_field f1 x y) by (unfold in_field in *; lia).
    rewrite (Hp1 x y Hin).
    rewrite HW1', HH1', <- HW1, <- HH1.
    rewrite Hp2
      by (unfold in_field; rewrite HW2', HH2', <- HW2, <- HH2, HW, HH;
          split; apply Z.mod_pos_bound; lia).
    now apply (next_cell_shifted dx dy f1 f2).
Qed.

Lemma Inv_game5_right : Inv world5_right game5_right.
Proof.
  split; [discriminate|]. exists blinker5_right, stale5.
  repeat split; reflexivity.
Qed.

Lemma blinker5_shifted : shifted 2 0 blinker5 blinker5_right.
Proof.
  split; [reflexivity|]. split; [reflexivity|].
  intros x y [Hx Hy]. cbn in Hx, Hy.
  assert (Hxs : x = 0 ∨ x = 1 ∨ x = 2 ∨ x = 3 ∨ x = 4) by lia.
  assert (Hys : y = 0 ∨ y = 1 ∨ y = 2 ∨ y = 3 ∨ y = 4) by lia.
  intuition (subst; reflexivity).
Qed.

Lemma Step_shifted_witness :
  Inv world5 game5 ∧ Inv world5_right game5_right ∧
  shifted 2 0 blinker5 blinker5_right ∧
  ∃ w1' w2' f1' f2',
    Step game5 world5 = Some (swapped game5, w1') ∧
    Step game5_right world5_right = Some (swapped game5_right, w2') ∧
    heap w1' !! Life.a (swapped game5) = Some f1' ∧
    heap w2' !! Life.a (swapped game5_right) = Some f2' ∧
    shifted 2 0 f1' f2'.
Proof.
  split; [exact Inv_game5|]. split; [exact Inv_game5_right|].
  split; [exact blinker5_shifted|].
  apply (Step_shifted 2 0 game5 game5_right world5 world5_right
                      blinker5 blinker5_right
                      Inv_game5 eq_refl Inv_game5_right eq_refl
                      blinker5_shifted).
Defined.
